(** * http-proxy: a shallow embedding of the proxy and its properties

    The development follows the layout of the repository:

    - [strings], [strconv], [net], [http]: the fragments of the Go
      standard library the proxy calls, with the behaviour the Go
      documentation gives them;
    - [proxyfilters]: [RestrictConnectPorts] (proxyfilters/connectports.go);
    - [measured], [redis], [utils]: the Redis traffic reporter
      (utils/redis_reporter.go) and the two types it works on;
    - [relay], [middleware], [httpconnect]: the CONNECT handler
      (httpconnect/httpconnect.go): its two copy loops with the
      once-guard and the idle timer, and the handler itself;
    - [forward], [profilter], [tokenfilter], [devicefilter]: the other
      components of the chain, whose sources are not part of this
      development;
    - [server]: the filter chain built by [NewServer], the connection-state
      hook of [doServe] and the [stoppableListener] (server.go);
    - [samples]: concrete inputs, among them the requests of main_test.go.

    The properties follow the definitions.

    Integers of fixed width are [Z] with the wrap-around written out;
    Go strings are [string] (sequences of bytes). *)

From Stdlib Require Import ZArith Lia List String Ascii Bool DecimalString.
From Stdlib Require Import DecimalPos DecimalN.
From stdpp Require Import base option list gmap sets strings.

Local Open Scope string_scope.
Local Open Scope Z_scope.

(** ** Results of fallible calls: Go's [(value, err)] pairs *)

Inductive result (A : Type) : Type :=
| Ok (a : A)
| Err (e : string).
Arguments Ok {A} a.
Arguments Err {A} e.

Definition is_err {A} (r : result A) : bool :=
  match r with Ok _ => false | Err _ => true end.

(** ** Fixed-width integers *)

Module machine.

Definition MaxInt64 : Z := 2 ^ 63 - 1.
Definition MinInt64 : Z := - 2 ^ 63.

(** Two's-complement wrap-around of an [int64] result. *)
Definition wrap64 (z : Z) : Z := (z + 2 ^ 63) mod 2 ^ 64 - 2 ^ 63.

(** Wrap-around of a [uint64] result. *)
Definition wrapU64 (z : Z) : Z := z mod 2 ^ 64.

Definition in_int64 (z : Z) : bool := (MinInt64 <=? z) && (z <=? MaxInt64).

End machine.

(** ** package strings: byte search and slicing *)

Module strings.

(** [IndexByte s c]: index of the first [c] in [s], or -1. *)
Fixpoint IndexByte (s : string) (c : ascii) : Z :=
  match s with
  | EmptyString => -1
  | String a s' =>
      if Ascii.eqb a c then 0
      else let r := IndexByte s' c in if r <? 0 then -1 else r + 1
  end.

(** [LastIndexByte s c]: index of the last [c] in [s], or -1. *)
Fixpoint LastIndexByte (s : string) (c : ascii) : Z :=
  match s with
  | EmptyString => -1
  | String a s' =>
      let r := LastIndexByte s' c in
      if 0 <=? r then r + 1
      else if Ascii.eqb a c then 0 else -1
  end.

Definition len (s : string) : Z := Z.of_nat (String.length s).

(** [s[lo:hi]] *)
Definition slice (s : string) (lo hi : Z) : string :=
  String.substring (Z.to_nat lo) (Z.to_nat (hi - lo)) s.

(** [s[lo:]] *)
Definition slice_from (s : string) (lo : Z) : string := slice s lo (len s).

(** [s[i]]; the callers below index only in range. *)
Definition at_ (s : string) (i : Z) : ascii :=
  match String.get (Z.to_nat i) s with
  | Some a => a
  | None => Ascii.zero
  end.

End strings.

(** ** package strconv *)

Module strconv.

Definition digit (ch : ascii) : option Z :=
  let n := Z.of_nat (nat_of_ascii ch) in
  if (48 <=? n) && (n <=? 57) then Some (n - 48) else None.

(** The digit loop of [Atoi]/[ParseUint]: [n = n*10 + int(ch)], with a
    syntax error on the first byte that is not a decimal digit. *)
Fixpoint digits (s : string) (n : Z) : option Z :=
  match s with
  | EmptyString => Some n
  | String ch s' =>
      match digit ch with
      | Some d => digits s' (n * 10 + d)
      | None => None
      end
  end.

(** [strconv.Atoi] on a 64-bit platform: an optional sign, then at
    least one decimal digit and nothing else; a value outside [int64]
    is a range error. *)
Definition Atoi (s0 : string) : result Z :=
  match s0 with
  | EmptyString => Err "invalid syntax"
  | String c rest =>
      let neg := Ascii.eqb c "-" in
      let s := if neg || Ascii.eqb c "+" then rest else s0 in
      match s with
      | EmptyString => Err "invalid syntax"
      | _ =>
          match digits s 0 with
          | None => Err "invalid syntax"
          | Some n =>
              let v := if neg then - n else n in
              if machine.in_int64 v then Ok v else Err "value out of range"
          end
      end
  end.

(** [strconv.FormatUint(n, 10)] *)
Definition FormatUint (n : Z) : string :=
  NilZero.string_of_uint (N.to_uint (Z.to_N n)).

End strconv.

(** ** package net *)

Module net.

Import strings.

Definition missingPort := "missing port in address".
Definition tooManyColons := "too many colons in address".

(** [net.SplitHostPort]: splits ["host:port"], ["[host]:port"] into host
    and port. *)
Definition SplitHostPort (hostport : string) : result (string * string) :=
  (* The port starts after the last colon. *)
  let i := LastIndexByte hostport ":" in
  if i <? 0 then Err missingPort
  else
    let bracketed : result (string * Z * Z) :=
      if Ascii.eqb (at_ hostport 0) "[" then
        (* Expect the first ']' just before the last ':'. *)
        let end_ := IndexByte hostport "]" in
        if end_ <? 0 then Err "missing ']' in address"
        else if end_ + 1 =? len hostport then Err missingPort
        else if end_ + 1 =? i then Ok (slice hostport 1 end_, 1, end_ + 1)
        else if Ascii.eqb (at_ hostport (end_ + 1)) ":" then Err tooManyColons
        else Err missingPort
      else
        let host := slice hostport 0 i in
        if 0 <=? IndexByte host ":" then Err tooManyColons
        else Ok (host, 0, 0)
    in
    match bracketed with
    | Err e => Err e
    | Ok (host, j, k) =>
        if 0 <=? IndexByte (slice_from hostport j) "[" then
          Err "unexpected '[' in address"
        else if 0 <=? IndexByte (slice_from hostport k) "]" then
          Err "unexpected ']' in address"
        else Ok (host, slice_from hostport (i + 1))
    end.

End net.

(** ** package net/http: requests and responses *)

Module http.

Definition MethodConnect := "CONNECT".

Definition StatusOK : Z := 200.
Definition StatusBadRequest : Z := 400.
Definition StatusForbidden : Z := 403.
Definition StatusNotFound : Z := 404.
Definition StatusInternalServerError : Z := 500.
Definition StatusBadGateway : Z := 502.

(** [http.Header]: header name to its values.  [Get] returns the first
    value, the empty string when the header is absent; [Del] removes the header. *)
Record Request := {
  Method : string;
  Host : string;
  Header : gmap string (list string);
  RemoteAddr : string;
}.

Definition Lookup (h : gmap string (list string)) (key : string)
  : option string :=
  match h !! key with
  | Some (v :: _) => Some v
  | _ => None
  end.

Definition Get (h : gmap string (list string)) (key : string) : string :=
  default EmptyString (Lookup h key).

Definition Del (h : gmap string (list string)) (key : string)
  : gmap string (list string) :=
  delete key h.

Definition with_header (req : Request) (h : gmap string (list string))
  : Request :=
  {| Method := Method req; Host := Host req; Header := h;
     RemoteAddr := RemoteAddr req |}.

Record Response := {
  StatusCode : Z;
  Body : string;
}.

(** [http.ConnState]: the states the server reports for a connection. *)
Inductive ConnState :=
| StateNew | StateActive | StateIdle | StateHijacked | StateClosed.

End http.

(** ** package proxyfilters: connectports.go *)

Module proxyfilters.

Import http.

Section RestrictConnectPorts.

(** [filters.Context] is opaque to this filter. *)
Variable Context : Type.

(** What a filter returns: the response, the context and the error. *)
Definition Outcome : Type := Response * Context * option string.

Definition Next : Type := Context -> Request -> Outcome.

(** Modelled from the spec: the helper [fail] of package proxyfilters
    is not under src/; it answers the request itself with the given
    status code and reports the description as the error. *)
Definition fail (ctx : Context) (req : Request) (statusCode : Z)
           (description : string) : Outcome :=
  ({| StatusCode := statusCode; Body := description |}, ctx,
   Some description).

(** The [for _, p := range allowedPorts] loop. *)
Fixpoint port_allowed (port : Z) (allowedPorts : list Z) : bool :=
  match allowedPorts with
  | [] => false
  | p :: ps => if port =? p then true else port_allowed port ps
  end.

Definition RestrictConnectPorts (allowedPorts : list Z)
           (ctx : Context) (req : Request) (next : Next) : Outcome :=
  if negb (String.eqb (Method req) MethodConnect)
     || (Z.of_nat (length allowedPorts) =? 0)
  then next ctx req
  else
    match net.SplitHostPort (Host req) with
    | Err _ =>
        (* CONNECT request should always include port in req.Host. *)
        fail ctx req StatusBadRequest
             "No port field in Request-URI / Host header"
    | Ok (_, portString) =>
        match strconv.Atoi portString with
        | Err _ => fail ctx req StatusBadRequest "Invalid port"
        | Ok port =>
            if port_allowed port allowedPorts then next ctx req
            else fail ctx req StatusForbidden "Port not allowed"
        end
    end.

Definition status (o : Outcome) : Z := StatusCode (fst (fst o)).

End RestrictConnectPorts.

Arguments fail {Context}.
Arguments RestrictConnectPorts {Context}.
Arguments status {Context}.

End proxyfilters.

(** ** package utils: redis_reporter.go *)

Module measured.

(** [measured.TrafficTracker]; the byte counters are [uint64]. *)
Record TrafficTracker := {
  ID : string;
  TotalIn : Z;
  TotalOut : Z;
}.

End measured.

Module redis.

(** The two writes the reporter issues. *)
Inductive Cmd :=
| HMSet (key : string) (fields : list (string * string))
| ZAdd (key : string) (score : Z) (member : string).

(** The client as the reporter sees it: the commands sent so far, and
    the server's answer to a command given that history ([None]: the
    write succeeded, [Some e]: it failed with error [e]). *)
Record Client := {
  answer : list Cmd -> Cmd -> option string;
  sent : list Cmd;
}.

Definition Do (rc : Client) (c : Cmd) : option string * Client :=
  (answer rc (sent rc) c, {| answer := answer rc; sent := sent rc ++ [c] |}).

End redis.

Module utils.

Import measured redis.

(** What a call does: it returns its [error] value or it panics. *)
Inductive Completion :=
| Return (err : option string)
| Panic (msg : string).

(** [float64(n)] for an unsigned integer: the nearest double, ties to
    even, given by its (integral) value. *)
Definition float64 (n : Z) : Z :=
  if n <? 2 ^ 53 then n
  else
    let k := Z.log2 n - 52 in
    let q := Z.shiftr n k in
    let r := Z.land n (2 ^ k - 1) in
    let half := 2 ^ (k - 1) in
    let q' := if (half <? r) || ((r =? half) && Z.odd q) then q + 1 else q in
    Z.shiftl q' k.

Definition newline : string := String (ascii_of_nat 10) EmptyString.

(** [fmt.Errorf("Error setting Redis key: %v\n", err)] *)
Definition redisError (e : string) : string :=
  ("Error setting Redis key: " ++ e ++ newline)%string.

(** The two writes made for one tracker. *)
Definition hmset (t : TrafficTracker) : Cmd :=
  HMSet ("client:" ++ ID t)%string
        [("bytesIn", strconv.FormatUint (TotalIn t));
         ("bytesOut", strconv.FormatUint (TotalOut t))].

Definition zadd (t : TrafficTracker) : Cmd :=
  ZAdd "client->bytes"
       (float64 (machine.wrapU64 (TotalIn t + TotalOut t))) (ID t).

(** [redisReporter.ReportTraffic]: the loop over the trackers, with
    the client threaded through. *)
Fixpoint ReportTraffic (rc : Client) (tt : list TrafficTracker)
  : Completion * Client :=
  match tt with
  | [] => (Return None, rc)
  | t :: tt' =>
      let key := ID t in
      if String.eqb key EmptyString then
        (Panic "empty key is not allowed", rc)
      else
        let '(err, rc1) := Do rc (hmset t) in
        match err with
        | Some e => (Return (Some (redisError e)), rc1)
        | None =>
            let '(err, rc2) := Do rc1 (zadd t) in
            match err with
            | Some e => (Return (Some (redisError e)), rc2)
            | None => ReportTraffic rc2 tt'
            end
        end
  end.

(** The writes a complete report of [tt] consists of, in order. *)
Definition writes (tt : list TrafficTracker) : list Cmd :=
  flat_map (fun t => [hmset t; zadd t]) tt.

(** The first write of [cs] that the server rejects when the writes are
    sent in order after [history]: its position and its error. *)
Fixpoint first_failure (answer : list Cmd -> Cmd -> option string)
         (history cs : list Cmd) : option (nat * string) :=
  match cs with
  | [] => None
  | c :: cs' =>
      match answer history c with
      | Some e => Some (O, e)
      | None =>
          match first_failure answer (history ++ [c]) cs' with
          | Some (i, e) => Some (S i, e)
          | None => None
          end
      end
  end.

(** *** Vocabulary of the properties *)

Definition identified (t : TrafficTracker) : Prop := ID t <> EmptyString.

Definition sending (rc : Client) (cs : list Cmd) : Client :=
  {| answer := answer rc; sent := sent rc ++ cs |}.

End utils.

(** ** The CONNECT relay: the two copy loops, the once-guard, the idle timer

    [intercept] runs [io.Copy(connOut, clientConn)] in a goroutine and
    [io.Copy(clientConn, connOut)] itself; each then calls
    [closeOnce.Do(closeConns)].  The two flows, the idle timer of
    [connOut] and the clock are interleaved by a schedule: a list of
    labels, each naming who moves next and what its environment answers. *)

Module relay.

(** The two flows of control. *)
Inductive Flow :=
| Up     (* the goroutine: client to target *)
| Down.  (* the caller: target to client *)

(** Where a flow stands: in its copy loop, or inside [sync.Once.Do]:
    - [CallDo]: about to load [done] (fast path);
    - [Locking]: about to take the mutex of the Once;
    - [Locked]: holds the mutex, about to load [done] again;
    - [CloseClient], [CloseOut]: inside [closeConns];
    - [StoreDone]: the deferred store of [done];
    - [Unlock]: the deferred unlock. *)
Inductive Pc :=
| Copying | CallDo | Locking | Locked
| CloseClient | CloseOut | StoreDone | Unlock | Returned.

Inductive Timer := Armed | Expired | Stopped.

(** One turn of a copy loop: bytes moved, end of stream, or an error. *)
Inductive Io := Data | EOF | Fail.

Inductive Label :=
| Copy (f : Flow) (o : Io)
| Do (f : Flow)
| Tick (d : Z)
| Idle.

Record Tunnel := {
  pcUp : Pc;
  pcDown : Pc;
  done : bool;            (* closeOnce.done *)
  mu : bool;              (* closeOnce.m is held *)
  fired : nat;            (* times closeConns was entered *)
  clientCloses : nat;     (* calls of clientConn.Close() *)
  outCloses : nat;        (* calls of connOut.Close() *)
  rawCloses : nat;        (* calls of connOutRaw.Close() *)
  timer : Timer;          (* the idle timer of connOut *)
  now : Z;
  lastActive : Z;         (* last activity seen by the idle timer *)
  lastClientRead : Z;     (* last time bytes were read from the client *)
}.

Definition clientClosed (t : Tunnel) : bool := (0 <? clientCloses t)%nat.
Definition targetClosed (t : Tunnel) : bool := (0 <? rawCloses t)%nat.

Definition pcOf (f : Flow) (t : Tunnel) : Pc :=
  match f with Up => pcUp t | Down => pcDown t end.

Definition setPc (f : Flow) (p : Pc) (t : Tunnel) : Tunnel :=
  match f with
  | Up => {| pcUp := p; pcDown := pcDown t; done := done t; mu := mu t;
             fired := fired t; clientCloses := clientCloses t;
             outCloses := outCloses t; rawCloses := rawCloses t;
             timer := timer t; now := now t; lastActive := lastActive t;
             lastClientRead := lastClientRead t |}
  | Down => {| pcUp := pcUp t; pcDown := p; done := done t; mu := mu t;
             fired := fired t; clientCloses := clientCloses t;
             outCloses := outCloses t; rawCloses := rawCloses t;
             timer := timer t; now := now t; lastActive := lastActive t;
             lastClientRead := lastClientRead t |}
  end.

(** The tunnel right after a successful dial at time [t0]: both copy
    loops running, [connOut] wrapped with a fresh idle timer. *)
Definition established (t0 : Z) : Tunnel :=
  {| pcUp := Copying; pcDown := Copying; done := false; mu := false;
     fired := 0; clientCloses := 0; outCloses := 0; rawCloses := 0;
     timer := Armed; now := t0; lastActive := t0; lastClientRead := t0 |}.

Section Relay.

(** [f.idleTimeout] *)
Variable idleTimeout : Z.

(** Modelled from the spec: package idletiming is not under src/.
    [idletiming.Conn(conn, timeout, onIdle)] wraps [conn] with one
    timer that is reset on every read from the wrapper that returns
    bytes, runs [onIdle] when [timeout] passes without a reset, and is
    stopped by [Close], which also closes [conn].  Whether a write
    through the wrapper resets the timer too is left open here:
    [activeOnWrite]. *)
Variable activeOnWrite : bool.

Definition markActive (t : Tunnel) : Tunnel :=
  {| pcUp := pcUp t; pcDown := pcDown t; done := done t; mu := mu t;
     fired := fired t; clientCloses := clientCloses t;
     outCloses := outCloses t; rawCloses := rawCloses t;
     timer := timer t; now := now t; lastActive := now t;
     lastClientRead := lastClientRead t |}.

Definition markClientRead (t : Tunnel) : Tunnel :=
  {| pcUp := pcUp t; pcDown := pcDown t; done := done t; mu := mu t;
     fired := fired t; clientCloses := clientCloses t;
     outCloses := outCloses t; rawCloses := rawCloses t;
     timer := timer t; now := now t; lastActive := lastActive t;
     lastClientRead := now t |}.

(** One turn of [io.Copy(connOut, clientConn)] ([Up]) or of
    [io.Copy(clientConn, connOut)] ([Down]).  Bytes move only while
    both connections are open; a read that ends the stream needs its
    source open; any other turn is an error.  The loop ends on end of
    stream and on error alike. *)
Definition copy (f : Flow) (o : Io) (t : Tunnel) : option Tunnel :=
  match pcOf f t with
  | Copying =>
      match o with
      | Data =>
          if clientClosed t || targetClosed t then None
          else
            Some match f with
                 | Up =>
                     let t1 := markClientRead t in
                     if activeOnWrite then markActive t1 else t1
                 | Down => markActive t
                 end
      | EOF =>
          let srcClosed :=
            match f with Up => clientClosed t | Down => targetClosed t end in
          if srcClosed then None else Some (setPc f CallDo t)
      | Fail => Some (setPc f CallDo t)
      end
  | _ => None
  end.

(** [closeConns], first half: [clientConn.Close()]. *)
Definition closeClient (t : Tunnel) : Tunnel :=
  {| pcUp := pcUp t; pcDown := pcDown t; done := done t; mu := mu t;
     fired := fired t; clientCloses := S (clientCloses t);
     outCloses := outCloses t; rawCloses := rawCloses t;
     timer := timer t; now := now t; lastActive := lastActive t;
     lastClientRead := lastClientRead t |}.

(** [closeConns], second half: [connOut.Close()] stops the idle timer
    and closes [connOutRaw]. *)
Definition closeOut (t : Tunnel) : Tunnel :=
  {| pcUp := pcUp t; pcDown := pcDown t; done := done t; mu := mu t;
     fired := fired t; clientCloses := clientCloses t;
     outCloses := S (outCloses t); rawCloses := S (rawCloses t);
     timer := match timer t with Armed => Stopped | x => x end;
     now := now t; lastActive := lastActive t;
     lastClientRead := lastClientRead t |}.

Definition setOnce (d m : bool) (n : nat) (t : Tunnel) : Tunnel :=
  {| pcUp := pcUp t; pcDown := pcDown t; done := d; mu := m;
     fired := n; clientCloses := clientCloses t;
     outCloses := outCloses t; rawCloses := rawCloses t;
     timer := timer t; now := now t; lastActive := lastActive t;
     lastClientRead := lastClientRead t |}.

(** One step of flow [f] inside [closeOnce.Do(closeConns)]. *)
Definition do (f : Flow) (t : Tunnel) : option Tunnel :=
  match pcOf f t with
  | CallDo =>
      Some (setPc f (if done t then Returned else Locking) t)
  | Locking =>
      if mu t then None
      else Some (setPc f Locked (setOnce (done t) true (fired t) t))
  | Locked =>
      if done t then Some (setPc f Unlock t)
      else Some (setPc f CloseClient
                       (setOnce (done t) (mu t) (S (fired t)) t))
  | CloseClient => Some (setPc f CloseOut (closeClient t))
  | CloseOut => Some (setPc f StoreDone (closeOut t))
  | StoreDone => Some (setPc f Unlock (setOnce true (mu t) (fired t) t))
  | Unlock => Some (setPc f Returned (setOnce (done t) false (fired t) t))
  | Copying | Returned => None
  end.

(** The idle timer fires: [onIdle] closes [connOutRaw]. *)
Definition idle (t : Tunnel) : option Tunnel :=
  match timer t with
  | Armed =>
      if idleTimeout <=? now t - lastActive t then
        Some {| pcUp := pcUp t; pcDown := pcDown t; done := done t;
                mu := mu t; fired := fired t;
                clientCloses := clientCloses t; outCloses := outCloses t;
                rawCloses := S (rawCloses t); timer := Expired;
                now := now t; lastActive := lastActive t;
                lastClientRead := lastClientRead t |}
      else None
  | _ => None
  end.

Definition tick (d : Z) (t : Tunnel) : option Tunnel :=
  if 0 <? d then
    Some {| pcUp := pcUp t; pcDown := pcDown t; done := done t;
            mu := mu t; fired := fired t;
            clientCloses := clientCloses t; outCloses := outCloses t;
            rawCloses := rawCloses t; timer := timer t;
            now := now t + d; lastActive := lastActive t;
            lastClientRead := lastClientRead t |}
  else None.

Definition step (t : Tunnel) (l : Label) : option Tunnel :=
  match l with
  | Copy f o => copy f o t
  | Do f => do f t
  | Tick d => tick d t
  | Idle => idle t
  end.

(** A schedule runs if each of its labels is enabled in turn. *)
Fixpoint run (t : Tunnel) (sched : list Label) : option Tunnel :=
  match sched with
  | [] => Some t
  | l :: sched' =>
      match step t l with
      | Some t' => run t' sched'
      | None => None
      end
  end.

(** The same, passing over the labels that are not enabled. *)
Fixpoint exec (t : Tunnel) (sched : list Label) : Tunnel :=
  match sched with
  | [] => t
  | l :: sched' =>
      match step t l with
      | Some t' => exec t' sched'
      | None => exec t sched'
      end
  end.

(** The idle timer is on time in a step when the clock does not pass
    the deadline of the armed timer: at the deadline the timer fires (or
    is reset or stopped) before time moves on. *)
Definition onTime (t : Tunnel) (l : Label) : bool :=
  match l, timer t with
  | Tick d, Armed => now t + d <=? lastActive t + idleTimeout
  | _, _ => true
  end.

(** A schedule runs with the timer on time throughout. *)
Fixpoint punctual (t : Tunnel) (sched : list Label) : bool :=
  match sched with
  | [] => true
  | l :: sched' =>
      onTime t l
      && match step t l with
         | Some t' => punctual t' sched'
         | None => false
         end
  end.

Definition reachable (t : Tunnel) : Prop :=
  exists t0 sched, run (established t0) sched = Some t.

(** The tunnel is torn down: the guard has run to its end and both
    connections are closed. *)
Definition tornDown (t : Tunnel) : bool :=
  done t && clientClosed t && targetClosed t.

(** What remains for a flow to do before [Do] returns. *)
Definition rank (p : Pc) : nat :=
  match p with
  | Copying => 8 | CallDo => 7 | Locking => 6 | Locked => 5
  | CloseClient => 4 | CloseOut => 3 | StoreDone => 2 | Unlock => 1
  | Returned => 0
  end.

Definition inCritical (p : Pc) : bool :=
  match p with
  | Locked | CloseClient | CloseOut | StoreDone | Unlock => true
  | _ => false
  end.

End Relay.

(** *** Vocabulary of the properties *)

(** Inside [closeConns], or about to publish [done]. *)
Definition closing (p : Pc) : bool :=
  match p with CloseClient | CloseOut | StoreDone => true | _ => false end.

Definition pastClient (p : Pc) : bool :=
  match p with CloseOut | StoreDone => true | _ => false end.

Definition pastOut (p : Pc) : bool :=
  match p with StoreDone => true | _ => false end.

Definition sawDone (p : Pc) : bool :=
  match p with Unlock | Returned => true | _ => false end.

Definition once (b : bool) : nat := if b then 1%nat else 0%nat.

(** What holds of every tunnel the relay can be in. *)
Record invariant (t : Tunnel) : Prop := {
  inv_mu : mu t = inCritical (pcUp t) || inCritical (pcDown t);
  inv_excl : inCritical (pcUp t) && inCritical (pcDown t) = false;
  inv_done : done t && (closing (pcUp t) || closing (pcDown t)) = false;
  inv_saw : (sawDone (pcUp t) || sawDone (pcDown t)) && negb (done t) = false;
  inv_fired :
    fired t = once (done t || closing (pcUp t) || closing (pcDown t));
  inv_client :
    clientCloses t
    = once (done t || pastClient (pcUp t) || pastClient (pcDown t));
  inv_out :
    outCloses t = once (done t || pastOut (pcUp t) || pastOut (pcDown t));
  inv_raw :
    rawCloses t
    = (outCloses t + once match timer t with Expired => true | _ => false end)%nat;
  inv_timer :
    match timer t with
    | Armed => outCloses t = 0%nat
    | Stopped => outCloses t = 1%nat
    | Expired => True
    end;
}.

Definition isDo (l : Label) : Prop :=
  match l with Do _ => True | _ => False end.

(** A flow that has left its copy loop and has not returned from [Do]. *)
Definition busy (p : Pc) : bool :=
  match p with Copying | Returned => false | _ => true end.

Definition weight (t : Tunnel) : nat := (rank (pcUp t) + rank (pcDown t))%nat.

Definition setLastClientRead (v : Z) (t : Tunnel) : Tunnel :=
  {| pcUp := pcUp t; pcDown := pcDown t; done := done t; mu := mu t;
     fired := fired t; clientCloses := clientCloses t;
     outCloses := outCloses t; rawCloses := rawCloses t;
     timer := timer t; now := now t; lastActive := lastActive t;
     lastClientRead := v |}.

Definition teardown (l : Label) : Prop :=
  l = Copy Down Fail \/ isDo l.

(** A step of one of the two flows. *)
Definition isFlow (l : Label) : bool :=
  match l with Copy _ _ | Do _ => true | _ => false end.

(** A step a flow takes without waiting for anyone outside: a step
    inside [Do], and the end of a copy whose source connection is
    closed, where the read fails at once. *)
Definition forced (t : Tunnel) (l : Label) : bool :=
  match l with
  | Do _ => true
  | Copy Up Fail => clientClosed t
  | Copy Down Fail => targetClosed t
  | _ => false
  end.

(** A step in which no copy ends and the timer does not fire: time
    passes or bytes move. *)
Definition quiet (l : Label) : Prop :=
  match l with Tick _ | Copy _ Data => True | _ => False end.

(** A run in which the client side stays silent for longer than the
    idle timeout although the tunnel stands: nothing was closed, the
    guard has not fired, and the idle timer cannot fire; the timer was
    on time throughout. *)
Definition outlives (idleTimeout : Z) (activeOnWrite : bool)
           (sched : list Label) : Prop :=
  exists t,
    run idleTimeout activeOnWrite (established 0) sched = Some t
    /\ idleTimeout < now t - lastClientRead t
    /\ fired t = 0%nat
    /\ clientClosed t = false /\ targetClosed t = false
    /\ step idleTimeout activeOnWrite t Idle = None
    /\ punctual idleTimeout activeOnWrite (established 0) sched = true.

End relay.

(** ** Handlers: what [ServeHTTP(w, req)] acts on *)

Module middleware.

Import http.

(** The components [NewServer] chains together. *)
Inductive Component :=
| Device | Token | LanternPro | Connect | Forward.

(** The state of one request being served: what was written to the
    [http.ResponseWriter], whether the connection was hijacked, the
    request's context (gorilla/context), the components entered so far
    (in order), and the tunnel once one is established. *)
Record Exchange := {
  written : list Response;
  hijacked : bool;
  context : gmap string string;
  entered : list Component;
  tunnel : option relay.Tunnel;
}.

(** The world outside the proxy, as one request meets it. *)
Record Env := {
  hijack : bool;                         (* Hijack() succeeds *)
  dial : string -> option Z;             (* net.Dial: the time it connects *)
  schedule : list relay.Label;           (* how the relay is interleaved *)
  activeOnWrite : bool;                  (* see [relay] *)
  roundTrip : Request -> result Response;(* the target, for direct proxying *)
  isPro : string -> bool;                (* the membership lookup *)
}.

Definition Handler : Type := Env -> Request -> Exchange -> Exchange.

Definition fresh : Exchange :=
  {| written := []; hijacked := false; context := ∅; entered := [];
     tunnel := None |}.

Definition enter (c : Component) (x : Exchange) : Exchange :=
  {| written := written x; hijacked := hijacked x; context := context x;
     entered := entered x ++ [c]; tunnel := tunnel x |}.

Definition write (r : Response) (x : Exchange) : Exchange :=
  {| written := written x ++ [r]; hijacked := hijacked x;
     context := context x; entered := entered x; tunnel := tunnel x |}.

Definition setContext (k v : string) (x : Exchange) : Exchange :=
  {| written := written x; hijacked := hijacked x;
     context := <[k := v]> (context x); entered := entered x;
     tunnel := tunnel x |}.

Definition setHijacked (x : Exchange) : Exchange :=
  {| written := written x; hijacked := true; context := context x;
     entered := entered x; tunnel := tunnel x |}.

Definition setTunnel (t : relay.Tunnel) (x : Exchange) : Exchange :=
  {| written := written x; hijacked := hijacked x; context := context x;
     entered := entered x; tunnel := Some t |}.

(** The status codes written to the client, in order. *)
Definition statuses (x : Exchange) : list Z := map StatusCode (written x).

(** The handler has closed the client connection: [clientConn.Close()]
    is called by [closeConns] only.  (A hijacked connection is out of
    the server's hands: the server does not close it either.) *)
Definition clientClosed (x : Exchange) : bool :=
  match tunnel x with
  | Some t => relay.clientClosed t
  | None => false
  end.

End middleware.

Module utils_respond.

Import http middleware.

(** Modelled from the spec: [utils.RespondOK] is not under src/; it
    writes the success status to the client. *)
Definition RespondOK (x : Exchange) : Exchange :=
  write {| StatusCode := StatusOK; Body := EmptyString |} x.

(** Modelled from the spec: [utils.RespondBadGateway] is not under
    src/; it writes a bad-gateway response carrying the message. *)
Definition RespondBadGateway (msg : string) (x : Exchange) : Exchange :=
  write {| StatusCode := StatusBadGateway; Body := msg |} x.

(** Modelled from the spec: the rejection shared by the token and the
    identity filter, a not-found response, the same whether the header
    was absent or wrong. *)
Definition RespondNotFound (x : Exchange) : Exchange :=
  write {| StatusCode := StatusNotFound; Body := EmptyString |} x.

End utils_respond.

(** ** package forward *)

Module forward.

Import http middleware.

(** Modelled from the spec: package forward is not under src/.  It
    sends the request to its target and streams the target's response
    back verbatim; when the target cannot be reached or served this way
    it answers with a server error. *)
Definition ServeHTTP : Handler := fun env req x =>
  let x := enter Forward x in
  match roundTrip env req with
  | Ok resp => write resp x
  | Err e => write {| StatusCode := StatusInternalServerError; Body := e |} x
  end.

Definition New : Handler := ServeHTTP.

End forward.

(** ** package httpconnect: httpconnect.go *)

Module httpconnect.

Import http middleware utils_respond.

Record HTTPConnectHandler := {
  next : Handler;
  idleTimeout : Z;
}.

Definition optSetter : Type := HTTPConnectHandler -> HTTPConnectHandler.

(** The logger plays no part in what the handler does. *)
Definition Logger : optSetter := fun f => f.

Definition IdleTimeoutSetter (i : Z) : optSetter := fun f =>
  {| next := next f; idleTimeout := i |}.

Definition New (next : Handler) (setters : list optSetter)
  : HTTPConnectHandler :=
  fold_left (fun f s => s f) setters {| next := next; idleTimeout := 0 |}.

Definition intercept (f : HTTPConnectHandler) : Handler := fun env req x =>
  let x := RespondOK x in
  if negb (hijack env) then
    RespondBadGateway "Unable to hijack connection" x
  else
    let x := setHijacked x in
    match dial env (Host req) with
    | None => x
    | Some t0 =>
        (* connOut, closeConns, closeOnce and the two copies *)
        setTunnel (relay.exec (idleTimeout f) (activeOnWrite env)
                              (relay.established t0) (schedule env)) x
    end.

Definition ServeHTTP (f : HTTPConnectHandler) : Handler := fun env req x =>
  let x := enter Connect x in
  (* If the request is not HTTP CONNECT, pass along to the next handler *)
  if negb (String.eqb (Method req) "CONNECT") then next f env req x
  else intercept f env req x.

End httpconnect.

(** ** package profilter *)

Module profilter.

Import http middleware.

(** Modelled from the spec: package profilter is not under src/.  It
    looks the client identifier up in the membership collaborator, tags
    the context when the client is pro, and always passes the request
    on. *)
Definition ServeHTTP (next : Handler) : Handler := fun env req x =>
  let x := enter LanternPro x in
  let x :=
    match context x !! "uid" with
    | Some uid => if isPro env uid then setContext "pro" "true" x else x
    | None => x
    end in
  next env req x.

Definition New (next : Handler) : Handler := ServeHTTP next.

End profilter.

(** ** package tokenfilter *)

Module tokenfilter.

Import http middleware utils_respond.

Definition tokenHeader := "X-Lantern-Auth-Token".

(** Modelled from the spec: package tokenfilter is not under src/.  It
    compares the configured secret with the token header of the
    request; when the header is absent or differs it answers not-found;
    otherwise it removes the header and calls the next handler. *)
Definition ServeHTTP (token : string) (next : Handler) : Handler :=
  fun env req x =>
    let x := enter Token x in
    match Lookup (Header req) tokenHeader with
    | Some t =>
        if String.eqb t token then
          next env (with_header req (Del (Header req) tokenHeader)) x
        else RespondNotFound x
    | None => RespondNotFound x
    end.

Definition New (next : Handler) (token : string) : Handler :=
  ServeHTTP token next.

End tokenfilter.

(** ** package devicefilter *)

Module devicefilter.

Import http middleware utils_respond.

Definition uidHeader := "X-Lantern-UID".

(** Modelled from the spec: package devicefilter is not under src/.
    It reads the client identifier header; when it is absent it answers
    as the token filter does; otherwise it stores the identifier in the
    request context, removes the header and calls the next handler. *)
Definition ServeHTTP (next : Handler) : Handler := fun env req x =>
  let x := enter Device x in
  match Lookup (Header req) uidHeader with
  | Some uid =>
      next env (with_header req (Del (Header req) uidHeader))
           (setContext "uid" uid x)
  | None => RespondNotFound x
  end.

Definition New (next : Handler) : Handler := ServeHTTP next.

End devicefilter.

(** ** package main: server.go *)

Module server.

Import http middleware.

(** A blocking call either completes or parks its caller; either way it
    leaves a state behind, which records the parked caller. *)
Inductive Progress (A : Type) : Type :=
| Done (a : A)
| Blocked (a : A).
Arguments Done {A} a.
Arguments Blocked {A} a.

Definition state_of {A} (p : Progress A) : A :=
  match p with Done a | Blocked a => a end.

(** [net.Conn] values, told apart by their identity. *)
Definition Conn : Type := nat.

(** *** stoppableListener

    Each call runs up to the point where it blocks.  A caller that
    blocks stays parked in the listener's state, at the channel it is
    blocked on, and goes on when that channel is served: the serving
    loop parked in [Accept] at the receive from [restart], callers of
    [Restart] parked at the send on [restart], callers of [Stop] parked
    at the send on a full [stop]. *)

Record stoppableListener := {
  stopped : Z;            (* int32 *)
  stop : list bool;       (* chan bool, capacity 1 *)
  restartWaiting : bool;  (* an Accept call is parked at the receive from
                             the unbuffered restart channel *)
  restartSending : nat;   (* Restart calls parked at the send on restart *)
  stopSending : nat;      (* Stop calls parked at the send on stop *)
}.

Definition newStoppableListener : stoppableListener :=
  {| stopped := 0; stop := []; restartWaiting := false;
     restartSending := 0; stopSending := 0 |}.

Definition IsStopped (sl : stoppableListener) : bool := stopped sl =? 1.

(** [Stop]: the send blocks while the buffer of [stop] is full. *)
Definition Stop (sl : stoppableListener) : Progress stoppableListener :=
  if negb (IsStopped sl) then
    if (length (stop sl) <? 1)%nat then
      Done {| stopped := 1; stop := stop sl ++ [true];
              restartWaiting := restartWaiting sl;
              restartSending := restartSending sl;
              stopSending := stopSending sl |}
    else
      Blocked {| stopped := stopped sl; stop := stop sl;
                 restartWaiting := restartWaiting sl;
                 restartSending := restartSending sl;
                 stopSending := S (stopSending sl) |}
  else Done sl.

(** [Restart]: the send on the unbuffered [restart] completes only with
    a receiver, that is with an [Accept] call parked there; until then
    the caller is parked at the send. *)
Definition Restart (sl : stoppableListener) : Progress stoppableListener :=
  if IsStopped sl then
    if restartWaiting sl then
      Done {| stopped := 0; stop := stop sl; restartWaiting := false;
              restartSending := restartSending sl;
              stopSending := stopSending sl |}
    else
      Blocked {| stopped := stopped sl; stop := stop sl;
                 restartWaiting := restartWaiting sl;
                 restartSending := S (restartSending sl);
                 stopSending := stopSending sl |}
  else Done sl.

(** The receive from [stop]: the value at the head is taken; a [Stop]
    call parked at the send gets its value into the buffer and goes on
    to store [stopped]. *)
Definition takeStop (rest : list bool) (sl : stoppableListener)
  : stoppableListener :=
  match stopSending sl with
  | S n =>
      {| stopped := 1; stop := rest ++ [true];
         restartWaiting := restartWaiting sl;
         restartSending := restartSending sl; stopSending := n |}
  | O =>
      {| stopped := stopped sl; stop := rest;
         restartWaiting := restartWaiting sl;
         restartSending := restartSending sl;
         stopSending := stopSending sl |}
  end.

(** The receive from [restart]: with a [Restart] call parked at the
    send, the value is handed over at once and that call goes on to
    store [stopped]; otherwise the receiver parks. *)
Definition takeRestart (sl : stoppableListener) : Progress stoppableListener :=
  match restartSending sl with
  | S n =>
      Done {| stopped := 0; stop := stop sl; restartWaiting := false;
              restartSending := n; stopSending := stopSending sl |}
  | O =>
      Blocked {| stopped := stopped sl; stop := stop sl;
                 restartWaiting := true;
                 restartSending := restartSending sl;
                 stopSending := stopSending sl |}
  end.

(** [Accept], up to the call of the embedded [Listener.Accept()]: with
    a value in [stop] it takes it and receives from [restart], where it
    parks ([Blocked]) unless a sender is waiting there; with no value in
    [stop], and after the receive, it goes on to the embedded listener
    ([Done]). *)
Definition Accept (sl : stoppableListener) : Progress stoppableListener :=
  match stop sl with
  | _ :: rest => takeRestart (takeStop rest sl)
  | [] => Done sl
  end.

(** The calls made on the listener: [Stop] and [Restart] by the
    connection-state hook, [Accept] by the one serving loop (which
    cannot call again while it is parked).  A call that blocks leaves
    its caller parked in the state. *)
Inductive Call := CallStop | CallRestart | CallAccept.

Definition call (sl : stoppableListener) (c : Call) : stoppableListener :=
  match c with
  | CallStop => state_of (Stop sl)
  | CallRestart => state_of (Restart sl)
  | CallAccept => if restartWaiting sl then sl else state_of (Accept sl)
  end.

Definition after (calls : list Call) : stoppableListener :=
  fold_left call calls newStoppableListener.

(** *** Server *)

Record Server := {
  connectComponent : httpconnect.HTTPConnectHandler;
  lanternProComponent : Handler;
  tokenFilterComponent : Handler;
  deviceFilterComponent : Handler;
  firstComponent : Handler;
  listener : stoppableListener;   (* installed by doServe *)
  maxConns : Z;                   (* int64 *)
  numConns : Z;                   (* int64 *)
  q : list Conn;                  (* doServe's queue, capacity 10 *)
  oops : nat;                     (* times the queue was found full *)
}.

(** [NewServer]: the chain is built from last to first. *)
Definition NewServer (token : string) (maxConns : Z) : Server :=
  (* Handles Direct Proxying *)
  let forwardHandler := forward.New in
  (* Handles HTTP CONNECT *)
  let connectHandler := httpconnect.New forwardHandler [httpconnect.Logger] in
  (* Identifies Lantern Pro users (currently NOOP) *)
  let lanternPro := profilter.New (httpconnect.ServeHTTP connectHandler) in
  (* Returns a 404 to requests without the proper token. *)
  let tokenFilter := tokenfilter.New lanternPro token in
  (* Extracts the user ID; returns a 404 to requests without the UID. *)
  let deviceFilter := devicefilter.New tokenFilter in
  let maxConns := if maxConns =? 0 then machine.MaxInt64 else maxConns in
  {| connectComponent := connectHandler;
     lanternProComponent := lanternPro;
     tokenFilterComponent := tokenFilter;
     deviceFilterComponent := deviceFilter;
     firstComponent := deviceFilter;
     listener := newStoppableListener;
     maxConns := maxConns;
     numConns := 0;
     q := [];
     oops := 0 |}.

Definition setListener (sl : stoppableListener) (s : Server) : Server :=
  {| connectComponent := connectComponent s;
     lanternProComponent := lanternProComponent s;
     tokenFilterComponent := tokenFilterComponent s;
     deviceFilterComponent := deviceFilterComponent s;
     firstComponent := firstComponent s;
     listener := sl; maxConns := maxConns s; numConns := numConns s;
     q := q s; oops := oops s |}.

(** [atomic.AddInt64(&s.numConns, delta)] *)
Definition addNumConns (delta : Z) (s : Server) : Server :=
  {| connectComponent := connectComponent s;
     lanternProComponent := lanternProComponent s;
     tokenFilterComponent := tokenFilterComponent s;
     deviceFilterComponent := deviceFilterComponent s;
     firstComponent := firstComponent s;
     listener := listener s; maxConns := maxConns s;
     numConns := machine.wrap64 (numConns s + delta);
     q := q s; oops := oops s |}.

(** [select { case q <- c: default: fmt.Print(...) }] *)
Definition enqueue (c : Conn) (s : Server) : Server :=
  let full := (10 <=? length (q s))%nat in
  {| connectComponent := connectComponent s;
     lanternProComponent := lanternProComponent s;
     tokenFilterComponent := tokenFilterComponent s;
     deviceFilterComponent := deviceFilterComponent s;
     firstComponent := firstComponent s;
     listener := listener s; maxConns := maxConns s;
     numConns := numConns s;
     q := if full then q s else q s ++ [c];
     oops := if full then S (oops s) else oops s |}.

(** The [switch state] of the hook. *)
Definition account (s : Server) (c : Conn) (state : ConnState) : Server :=
  match state with
  | StateNew => addNumConns 1 s
  | StateActive => enqueue c s
  | StateClosed => addNumConns (-1) s
  | _ => s
  end.

Definition lift (s : Server) (p : Progress stoppableListener)
  : Progress Server :=
  match p with
  | Done sl => Done (setListener sl s)
  | Blocked sl => Blocked (setListener sl s)
  end.

(** The [ConnState] hook that [doServe] installs. *)
Definition ConnState (s : Server) (c : Conn) (state : http.ConnState)
  : Progress Server :=
  let s := account s c state in
  if maxConns s <=? numConns s then lift s (Stop (listener s))
  else if IsStopped (listener s) then lift s (Restart (listener s))
  else Done s.

(** The hook run over a sequence of reported events. *)
Definition serve (s : Server) (evs : list (Conn * http.ConnState)) : Server :=
  fold_left (fun s e => state_of (ConnState s (fst e) (snd e))) evs s.

(** *** Connections by the events reported for them *)

Definition isState (st : http.ConnState) (e : Conn * http.ConnState) : bool :=
  match st, snd e with
  | StateNew, StateNew | StateActive, StateActive | StateIdle, StateIdle
  | StateHijacked, StateHijacked | StateClosed, StateClosed => true
  | _, _ => false
  end.

(** The connections reported [StateNew], and those reported
    [StateClosed], one entry per report. *)
Definition accepted (evs : list (Conn * http.ConnState)) : list Conn :=
  map fst (List.filter (isState StateNew) evs).

Definition closed (evs : list (Conn * http.ConnState)) : list Conn :=
  map fst (List.filter (isState StateClosed) evs).

Definition member (c : Conn) (l : list Conn) : bool := existsb (Nat.eqb c) l.

(** The connections that were accepted and have not gone to
    [StateClosed]. *)
Definition open (evs : list (Conn * http.ConnState)) : list Conn :=
  List.filter (fun c => negb (member c (closed evs)))
              (remove_dups (accepted evs)).

(** The order net/http keeps for each connection: [StateNew] is
    reported once, before anything else; [StateClosed] at most once,
    after [StateNew], and nothing after it. *)
Fixpoint lifecycle (seen gone : list Conn)
         (evs : list (Conn * http.ConnState)) : bool :=
  match evs with
  | [] => true
  | (c, st) :: evs' =>
      match st with
      | StateNew =>
          negb (member c seen) && lifecycle (c :: seen) gone evs'
      | StateClosed =>
          member c seen && negb (member c gone)
          && lifecycle seen (c :: gone) evs'
      | _ =>
          member c seen && negb (member c gone)
          && lifecycle seen gone evs'
      end
  end.

(** Modelled from net/http, which is not part of this repository: both
    [StateClosed] and [StateHijacked] are terminal.  A connection a
    handler has hijacked is reported [StateHijacked] and nothing is
    reported for it afterwards; it never goes to [StateClosed]. *)
Fixpoint httpOrder (seen over : list Conn)
         (evs : list (Conn * http.ConnState)) : bool :=
  match evs with
  | [] => true
  | (c, st) :: evs' =>
      match st with
      | StateNew =>
          negb (member c seen) && httpOrder (c :: seen) over evs'
      | StateClosed | StateHijacked =>
          member c seen && negb (member c over)
          && httpOrder seen (c :: over) evs'
      | _ =>
          member c seen && negb (member c over)
          && httpOrder seen over evs'
      end
  end.

(** Modelled from net/http: the states reported for a connection that
    carries one request, by what the handler did with it. *)
Definition lifeOf (c : Conn) (x : Exchange) : list (Conn * http.ConnState) :=
  (c, StateNew) :: (c, StateActive)
  :: (if hijacked x then [(c, StateHijacked)]
      else [(c, StateIdle); (c, StateClosed)]).

(** *** The hook and the serving loop together

    What happens to a server: [net/http] reports a state of a
    connection (the hook runs, up to where it blocks), or the serving
    loop calls [Accept]. *)
Inductive Event :=
| Report (c : Conn) (state : http.ConnState)
| Accepting.

Definition drive (s : Server) (evs : list Event) : Server :=
  fold_left (fun s e =>
               match e with
               | Report c state => state_of (ConnState s c state)
               | Accepting => setListener (call (listener s) CallAccept) s
               end) evs s.

(** *** Vocabulary of the properties *)

(** Serving one request from a fresh exchange. *)
Definition handle (token : string) (maxConns : Z) (env : Env) (req : Request)
  : Exchange :=
  firstComponent (NewServer token maxConns) env req fresh.

Definition hasUID (req : Request) (uid : string) : Prop :=
  Lookup (Header req) devicefilter.uidHeader = Some uid.

Definition noUID (req : Request) : Prop :=
  Lookup (Header req) devicefilter.uidHeader = None.

Definition goodToken (token : string) (req : Request) : Prop :=
  Lookup (Header req) tokenfilter.tokenHeader = Some token.

Definition noToken (req : Request) : Prop :=
  Lookup (Header req) tokenfilter.tokenHeader = None.

Definition wrongToken (token : string) (req : Request) : Prop :=
  exists t, Lookup (Header req) tokenfilter.tokenHeader = Some t /\ t <> token.

Definition notFound : Response :=
  {| StatusCode := StatusNotFound; Body := EmptyString |}.

(** The order in which [NewServer] chains the components. *)
Definition chain : list Component := [Device; Token; LanternPro; Connect; Forward].

Definition news (evs : list (Conn * http.ConnState)) : Z := Z.of_nat (length (accepted evs)).

Definition closes (evs : list (Conn * http.ConnState)) : Z := Z.of_nat (length (closed evs)).

(** The states a listener can be in: running; paused with the value
    still in [stop] (the serving loop has not called [Accept] yet);
    paused with the serving loop parked in [Accept].  Callers of
    [Restart] can be parked at the send while the listener is paused and
    the serving loop has not come to [Accept], and some of them can
    still be parked there once it runs again. *)
Inductive shape (sl : stoppableListener) : Prop :=
| Running :
    stopped sl = 0 -> stop sl = [] -> restartWaiting sl = false ->
    stopSending sl = 0%nat -> shape sl
| Pending :
    stopped sl = 1 -> stop sl = [true] -> restartWaiting sl = false ->
    stopSending sl = 0%nat -> shape sl
| Parked :
    stopped sl = 1 -> stop sl = [] -> restartWaiting sl = true ->
    restartSending sl = 0%nat -> stopSending sl = 0%nat -> shape sl.

End server.


(** ** Sample inputs *)

Module samples.

Import http.

Definition clientUID := "1234-1234-1234-1234-1234-1234".
Definition validToken := "6o0dToK3n".

(** A request with the given method, host and headers. *)
Definition request (method host : string) (headers : list (string * string))
  : Request :=
  {| Method := method; Host := host;
     Header := list_to_map (map (fun kv => (fst kv, [snd kv])) headers);
     RemoteAddr := "127.0.0.1:50000" |}.

(** Two trackers, the second without a client identifier. *)
Definition alice : measured.TrafficTracker :=
  {| measured.ID := "alice"; measured.TotalIn := 10; measured.TotalOut := 20 |}.

Definition anonymous : measured.TrafficTracker :=
  {| measured.ID := EmptyString; measured.TotalIn := 1;
     measured.TotalOut := 2 |}.

Definition trackers : list measured.TrafficTracker := [alice; anonymous].

(** A store that accepts every write, and one that is down. *)
Definition healthy : redis.Client :=
  {| redis.answer := fun _ _ => None; redis.sent := [] |}.

Definition down : redis.Client :=
  {| redis.answer := fun _ _ => Some "connection refused"; redis.sent := [] |}.

(** A store that rejects the writes to the ordered set. *)
Definition noZAdd : redis.Client :=
  {| redis.answer := fun _ c =>
       match c with redis.ZAdd _ _ _ => Some "READONLY" | _ => None end;
     redis.sent := [] |}.

(** The client ends its stream; the goroutine runs the guard; later the
    caller's copy fails on the closed connections and finds the guard
    done. *)
Definition hangUp : list relay.Label :=
  [relay.Copy relay.Up relay.EOF;
   relay.Do relay.Up; relay.Do relay.Up; relay.Do relay.Up;
   relay.Do relay.Up; relay.Do relay.Up; relay.Do relay.Up;
   relay.Do relay.Up;
   relay.Tick 3; relay.Copy relay.Down relay.Fail; relay.Do relay.Down].

Definition afterHangUp : relay.Tunnel :=
  relay.exec 10 true (relay.established 0) hangUp.

(** The target keeps sending, the client never sends a byte. *)
Definition quietClient : list relay.Label :=
  [relay.Tick 9; relay.Copy relay.Down relay.Data;
   relay.Tick 9; relay.Copy relay.Down relay.Data;
   relay.Tick 9; relay.Copy relay.Down relay.Data].

(** Nobody sends anything for the whole idle timeout. *)
Definition silence : list relay.Label := [relay.Tick 10].

Definition afterSilence : relay.Tunnel :=
  relay.exec 10 true (relay.established 0) silence.

(** Nobody sends anything; the idle timer fires at its deadline, and
    time goes on. *)
Definition lapse : list relay.Label :=
  [relay.Tick 10; relay.Idle; relay.Tick 5].

Definition afterLapse : relay.Tunnel :=
  relay.exec 10 true (relay.established 0) lapse.

(** The flows after that: the copy from the target fails and the caller
    runs the guard; the copy from the client fails on its closed
    connection and the goroutine finds the guard done. *)
Definition unwind : list relay.Label :=
  [relay.Copy relay.Down relay.Fail;
   relay.Do relay.Down; relay.Do relay.Down; relay.Do relay.Down;
   relay.Do relay.Down; relay.Do relay.Down; relay.Do relay.Down;
   relay.Do relay.Down;
   relay.Copy relay.Up relay.Fail; relay.Do relay.Up].

Definition afterUnwind : relay.Tunnel :=
  relay.exec 10 true afterLapse unwind.

Definition target := "example.com:443".

(** The requests of main_test.go. *)
Definition connectOK : Request :=
  request "CONNECT" target
          [(tokenfilter.tokenHeader, validToken);
           (devicefilter.uidHeader, clientUID)].

Definition connectNoToken : Request :=
  request "CONNECT" target [(devicefilter.uidHeader, clientUID)].

Definition connectBadToken : Request :=
  request "CONNECT" target
          [(tokenfilter.tokenHeader, "B4dT0k3n");
           (devicefilter.uidHeader, clientUID)].

Definition connectNoUID : Request :=
  request "CONNECT" target [(tokenfilter.tokenHeader, validToken)].

Definition directOK : Request :=
  request "GET" target
          [(tokenfilter.tokenHeader, validToken);
           (devicefilter.uidHeader, clientUID)].

(** A world in which the target cannot be dialed. *)
Definition unreachable : middleware.Env :=
  {| middleware.hijack := true;
     middleware.dial := fun _ => None;
     middleware.schedule := [];
     middleware.activeOnWrite := true;
     middleware.roundTrip := fun _ => Err "no route to host";
     middleware.isPro := fun _ => false |}.

(** A world in which the target answers. *)
Definition online : middleware.Env :=
  {| middleware.hijack := true;
     middleware.dial := fun _ => Some 0;
     middleware.schedule := hangUp;
     middleware.activeOnWrite := true;
     middleware.roundTrip := fun _ =>
       Ok {| StatusCode := StatusOK; Body := "Fight for a Free Internet!" |};
     middleware.isPro := fun _ => false |}.

(** Two connections come and go; the first is hijacked by a CONNECT. *)
Definition traffic : list (server.Conn * ConnState) :=
  [(1%nat, StateNew); (1%nat, StateActive); (2%nat, StateNew);
   (1%nat, StateHijacked); (2%nat, StateActive); (2%nat, StateIdle);
   (2%nat, StateClosed)].

(** A server with room for two connections.  The second connection
    takes it to its cap and the hook stops the listener; before the
    serving loop is back in [Accept], the first connection is closed and
    the second becomes active: both hooks find the counter under the cap
    and the listener stopped, and both park in [Restart].  The serving
    loop then calls [Accept]. *)
Definition rush : list server.Event :=
  [server.Report 1%nat StateNew; server.Report 2%nat StateNew;
   server.Report 1%nat StateClosed; server.Report 2%nat StateActive;
   server.Accepting].

Definition afterRush : server.Server :=
  server.drive (server.NewServer validToken 2) rush.

(** A server with room for one connection, after that connection was
    accepted and the serving loop has called [Accept] again. *)
Definition full : server.Server :=
  server.setListener
    (server.after [server.CallStop; server.CallAccept])
    (server.serve (server.NewServer validToken 1) [(1%nat, StateNew)]).

(** A next filter that answers 200 itself. *)
Definition accept : proxyfilters.Next unit := fun ctx _ =>
  ({| StatusCode := StatusOK; Body := "passed" |}, ctx, None).

End samples.

(** ** Further vocabulary: addresses on the wire *)

Module wire.

(** A host or port string without any of the bytes [SplitHostPort]
    gives a meaning to. *)
Definition plain (s : string) : Prop :=
  strings.IndexByte s ":" < 0
  /\ strings.IndexByte s "[" < 0
  /\ strings.IndexByte s "]" < 0.

(** [host:port], as a CONNECT request line carries it. *)
Definition hostport (host port : string) : string :=
  (host ++ ":" ++ port)%string.

(** The value of a string of decimal digits, read as [Atoi] reads it. *)
Fixpoint value (d : Decimal.uint) (acc : Z) : Z :=
  match d with
  | Decimal.Nil => acc
  | Decimal.D0 d => value d (acc * 10 + 0)
  | Decimal.D1 d => value d (acc * 10 + 1)
  | Decimal.D2 d => value d (acc * 10 + 2)
  | Decimal.D3 d => value d (acc * 10 + 3)
  | Decimal.D4 d => value d (acc * 10 + 4)
  | Decimal.D5 d => value d (acc * 10 + 5)
  | Decimal.D6 d => value d (acc * 10 + 6)
  | Decimal.D7 d => value d (acc * 10 + 7)
  | Decimal.D8 d => value d (acc * 10 + 8)
  | Decimal.D9 d => value d (acc * 10 + 9)
  end.

End wire.

(** ** Further vocabulary: the options of [httpconnect.New] *)

Module options.

Import httpconnect.

(** The setters of package httpconnect, as data: an idle timeout, or the
    logger. *)
Definition setter (o : option Z) : optSetter :=
  match o with
  | Some i => IdleTimeoutSetter i
  | None => Logger
  end.

(** The idle timeout a list of options leaves: that of the last
    [IdleTimeoutSetter], zero without one. *)
Definition lastTimeout (opts : list (option Z)) : Z :=
  default 0 (last (omap id opts)).

End options.

(** ** package main: the handler of [doServe] (server.go)

    The handler [doServe] installs pairs a request with its connection
    by going through the queue [q]: it takes the connection at the head;
    if its remote address is the request's it keeps that connection (and
    stores it in the request's context), otherwise it sends the
    connection to the back of the queue and goes on.  The search is
    taken on its own: no report adds to the queue and no other request
    takes from it while it runs. *)

Module doServe.

Import server.

Section Queue.

(** [c.RemoteAddr().String()] *)
Variable RemoteAddr : Conn -> string.

(** How the loop [for c := range q] ends: with the connection found and
    the queue it leaves; parked at the receive from an empty queue; or
    not within the given number of turns. *)
Inductive Search :=
| Found (c : Conn) (rest : list Conn)
| Parked
| Turning.

Fixpoint associate (turns : nat) (q : list Conn) (addr : string) : Search :=
  match turns with
  | O => Turning
  | S turns' =>
      match q with
      | [] => Parked
      | c :: rest =>
          if String.eqb (RemoteAddr c) addr then Found c rest
          else associate turns' (rest ++ [c]) addr
      end
  end.

(** No connection of [l] has the address. *)
Definition absent (addr : string) (l : list Conn) : Prop :=
  Forall (fun c => RemoteAddr c <> addr) l.

End Queue.

(** The events of a given state among the reports. *)
Definition reports (st : http.ConnState) (evs : list (Conn * http.ConnState))
  : nat :=
  length (List.filter (isState st) evs).

End doServe.

(** ** package main (the earlier main.go kept beside httpconnect.go):
    [CertContext.InitServerCert] and [listenTLS] *)

Module certs.

(** Errors that [os.IsNotExist] tells apart from the others. *)
Inductive Error :=
| NotExist
| Failure (msg : string).

Definition message (e : Error) : string :=
  match e with
  | NotExist => "no such file or directory"
  | Failure msg => msg
  end.

Section Keyman.

(** [keyman.PrivateKey] and [keyman.Certificate] *)
Variable PrivateKey Certificate : Type.

(** What a file holds. *)
Inductive File :=
| KeyPEM (k : PrivateKey)
| CertPEM (c : Certificate)
| Junk (bytes : string).

(** The calls into package keyman and the file system, as the world
    answers them:
    - [GeneratePK(2048)];
    - [pk.TLSCertificateFor(organization, name, validUntil, isCA, issuer)]
      with a nil issuer;
    - whether a file can be written with the given content ([None]:
      yes); a write that fails gives its error and what it has left at
      the path, [None] for the file as it was (never opened), the
      remains of the file otherwise (opened, truncated, half written). *)
Record World := {
  GeneratePK : result PrivateKey;
  TLSCertificateFor :
    PrivateKey -> string -> string -> Z -> bool -> result Certificate;
  writeError : string -> File -> option (string * option File);
}.

Record CertContext := {
  PKFile : string;
  ServerCertFile : string;
  PK : option PrivateKey;
  ServerCert : option Certificate;
}.

Variable w : World.

(** [tenYearsFromToday] *)
Variable tenYearsFromToday : Z.

(** [keyman.LoadPKFromFile] *)
Definition LoadPKFromFile (fs : gmap string File) (path : string)
  : PrivateKey + Error :=
  match fs !! path with
  | None => inr NotExist
  | Some (KeyPEM k) => inl k
  | Some _ => inr (Failure "failed to parse private key")
  end.

(** [WriteToFile] of a key or a certificate: the file is replaced, or
    the write fails; no other file is concerned. *)
Definition WriteToFile (fs : gmap string File) (path : string) (f : File)
  : option string * gmap string File :=
  match writeError w path f with
  | Some (e, None) => (Some e, fs)
  | Some (e, Some rest) => (Some e, <[path := rest]> fs)
  | None => (None, <[path := f]> fs)
  end.

Definition setPK (ctx : CertContext) (k : option PrivateKey) : CertContext :=
  {| PKFile := PKFile ctx; ServerCertFile := ServerCertFile ctx;
     PK := k; ServerCert := ServerCert ctx |}.

Definition setServerCert (ctx : CertContext) (c : option Certificate)
  : CertContext :=
  {| PKFile := PKFile ctx; ServerCertFile := ServerCertFile ctx;
     PK := PK ctx; ServerCert := c |}.

(** The second half of [InitServerCert]: the certificate is made anew
    for the key at hand and written. *)
Definition makeCert (ctx : CertContext) (k : PrivateKey)
           (fs : gmap string File) (host : string)
  : option string * CertContext * gmap string File :=
  match TLSCertificateFor w k "Lantern" host tenYearsFromToday true with
  | Err e => (Some e, setServerCert ctx None, fs)
  | Ok c =>
      let ctx := setServerCert ctx (Some c) in
      let '(err, fs) := WriteToFile fs (ServerCertFile ctx) (CertPEM c) in
      (err, ctx, fs)
  end.

(** [InitServerCert]: the error it returns, the context and the file
    system it leaves. *)
Definition InitServerCert (ctx : CertContext) (fs : gmap string File)
           (host : string)
  : option string * CertContext * gmap string File :=
  match LoadPKFromFile fs (PKFile ctx) with
  | inl k => makeCert (setPK ctx (Some k)) k fs host
  | inr err =>
      match err with
      | NotExist =>
          match GeneratePK w with
          | Err e => (Some e, setPK ctx None, fs)
          | Ok k =>
              let ctx := setPK ctx (Some k) in
              match WriteToFile fs (PKFile ctx) (KeyPEM k) with
              | (Some e, fs) =>
                  (Some ("Unable to save private key: " ++ e)%string, ctx, fs)
              | (None, fs) => makeCert ctx k fs host
              end
          end
      | _ =>
          (Some ("Unable to read private key, even though it exists: "
                 ++ message err)%string,
           setPK ctx None, fs)
      end
  end.

(** What [listenTLS] hands back: the address listened on and the
    certificate served. *)
Record Listener := {
  Addr : string;
  Served : Certificate;
}.

(** [tls.LoadX509KeyPair] and [tls.Listen], as the world answers
    them. *)
Variable LoadX509KeyPair :
  gmap string File -> string -> string -> result Certificate.
Variable Listen : string -> Certificate -> result Listener.

(** [listenTLS], for the address given by the flag. *)
Definition listenTLS (addr : string) (fs : gmap string File)
  : result Listener * gmap string File :=
  match net.SplitHostPort addr with
  | Err e =>
      (Err ("Unable to split host and port for " ++ addr ++ ": " ++ e)%string,
       fs)
  | Ok (host, _) =>
      let ctx := {| PKFile := "key.pem"; ServerCertFile := "cert.pem";
                    PK := None; ServerCert := None |} in
      match InitServerCert ctx fs host with
      | (Some e, _, fs) =>
          (Err ("Unable to init server cert: " ++ e)%string, fs)
      | (None, ctx, fs) =>
          match LoadX509KeyPair fs (ServerCertFile ctx) (PKFile ctx) with
          | Err e =>
              (Err ("Unable to load certificate and key from "
                    ++ ServerCertFile ctx ++ " and " ++ PKFile ctx ++ ": "
                    ++ e)%string, fs)
          | Ok cert =>
              match Listen addr cert with
              | Err e =>
                  (Err ("Unable to listen for tls connections at "
                        ++ addr ++ ": " ++ e)%string, fs)
              | Ok l => (Ok l, fs)
              end
          end
      end
  end.

End Keyman.

Arguments KeyPEM {PrivateKey Certificate} k.
Arguments CertPEM {PrivateKey Certificate} c.
Arguments Junk {PrivateKey Certificate} bytes.

End certs.

(** ** Further sample inputs *)

Module samples2.

Import certs.

(** Remote addresses for the connections of [samples.traffic]. *)
Definition addrOf (c : server.Conn) : string :=
  match c with
  | 1%nat => "10.0.0.1:40001"
  | 2%nat => "10.0.0.2:40002"
  | _ => "10.0.0.9:40009"
  end.

(** Keys are numbers; a certificate names its host and its key. *)
Definition world : World nat (string * nat) :=
  {| GeneratePK := Ok 7%nat;
     TLSCertificateFor := fun k _ host _ _ => Ok (host, k);
     writeError := fun _ _ => None |}.

Definition loadPair (fs : gmap string (File nat (string * nat)))
           (certFile keyFile : string) : result (string * nat) :=
  match fs !! certFile, fs !! keyFile with
  | Some (CertPEM c), Some (KeyPEM k) =>
      if Nat.eqb (snd c) k then Ok c
      else Err "private key does not match public key"
  | _, _ => Err "no such file or directory"
  end.

Definition listen (addr : string) (c : string * nat)
  : result (Listener (string * nat)) :=
  Ok {| Addr := addr; Served := c |}.

Definition context : CertContext nat (string * nat) :=
  {| PKFile := "key.pem"; ServerCertFile := "cert.pem";
     PK := None; ServerCert := None |}.

(** A disk with a key file that holds no key. *)
Definition spoiled : gmap string (File nat (string * nat)) :=
  {[ "key.pem" := Junk "not a key" ]}.

End samples2.
(** * Properties *)

Lemma wrap64_small z :
  machine.MinInt64 <= z <= machine.MaxInt64 -> machine.wrap64 z = z.
Proof.
  unfold machine.wrap64, machine.MinInt64, machine.MaxInt64. intros H.
  rewrite Z.mod_small; lia.
Qed.

(** ** Port restriction *)

Section PortRestriction.

Import http proxyfilters.

Variable Context : Type.
Implicit Types (ctx : Context) (req : Request) (next : Next Context).

Lemma LastIndexByte_none s c :
  strings.IndexByte s c < 0 -> strings.LastIndexByte s c = -1.
Proof.
  induction s as [|a s IH]; simpl; [done|].
  destruct (Ascii.eqb a c); [lia|].
  destruct (Z.ltb_spec (strings.IndexByte s c) 0) as [Hlt|Hge]; [|lia].
  intros _. rewrite (IH Hlt). reflexivity.
Qed.

(** A host without any colon is rejected by [SplitHostPort]. *)
Lemma SplitHostPort_no_colon host :
  strings.IndexByte host ":" = -1 -> is_err (net.SplitHostPort host) = true.
Proof.
  intros H. unfold net.SplitHostPort.
  rewrite LastIndexByte_none by lia. reflexivity.
Qed.

Lemma port_allowed_In port allowedPorts :
  port_allowed port allowedPorts = true <-> In port allowedPorts.
Proof.
  induction allowedPorts as [|p ps IH]; simpl; [split; [discriminate|tauto]|].
  destruct (port =? p) eqn:E.
  - apply Z.eqb_eq in E. split; auto.
  - apply Z.eqb_neq in E. rewrite IH. split; [auto|].
    intros [->|]; [contradiction | assumption].
Qed.

Lemma restricted (allowedPorts : list Z) req :
  Method req = MethodConnect -> allowedPorts <> [] ->
  negb (String.eqb (Method req) MethodConnect)
  || (Z.of_nat (length allowedPorts) =? 0) = false.
Proof.
  intros -> Hne. rewrite String.eqb_refl. simpl.
  destruct allowedPorts; [done | reflexivity].
Qed.

(** C8.  For a CONNECT request and a non-empty allow-list,
    [RestrictConnectPorts] answers 400 when the Host has no port (no
    colon at all, or any other address [SplitHostPort] rejects), 403
    when the port parses and is not in the list, and hands the request
    to the next filter, unchanged, when the port is in the list. *)
Theorem RestrictConnectPorts_connect allowedPorts ctx req next :
  Method req = MethodConnect ->
  allowedPorts <> [] ->
  (strings.IndexByte (Host req) ":" = -1 ->
     status (RestrictConnectPorts allowedPorts ctx req next) = 400)
  /\ (is_err (net.SplitHostPort (Host req)) = true ->
     status (RestrictConnectPorts allowedPorts ctx req next) = 400)
  /\ (forall host portString port,
        net.SplitHostPort (Host req) = Ok (host, portString) ->
        strconv.Atoi portString = Ok port ->
        (~ In port allowedPorts ->
           status (RestrictConnectPorts allowedPorts ctx req next) = 403)
        /\ (In port allowedPorts ->
           RestrictConnectPorts allowedPorts ctx req next = next ctx req)).
Proof.
  intros Hm Hne.
  assert (is_err (net.SplitHostPort (Host req)) = true ->
          status (RestrictConnectPorts allowedPorts ctx req next) = 400)
    as Hbad.
  { intros He. unfold RestrictConnectPorts.
    rewrite (restricted _ _ Hm Hne).
    destruct (net.SplitHostPort (Host req)); [discriminate | reflexivity]. }
  split; [|split].
  - intros H. apply Hbad, SplitHostPort_no_colon, H.
  - apply Hbad.
  - intros host portString port Hs Ha. unfold RestrictConnectPorts.
    rewrite (restricted _ _ Hm Hne), Hs, Ha.
    split; intros Hin.
    + destruct (port_allowed port allowedPorts) eqn:E; [|reflexivity].
      apply port_allowed_In in E. contradiction.
    + apply port_allowed_In in Hin. rewrite Hin. reflexivity.
Qed.

(** C9.  [RestrictConnectPorts] hands every request that is not a
    CONNECT, and every request when the allow-list is empty, to the next
    filter unchanged; a CONNECT request whose port is present but is
    not an integer is answered 400 (not 403). *)
Theorem RestrictConnectPorts_unrestricted allowedPorts ctx req next :
  (Method req <> MethodConnect ->
     RestrictConnectPorts allowedPorts ctx req next = next ctx req)
  /\ (allowedPorts = [] ->
     RestrictConnectPorts allowedPorts ctx req next = next ctx req)
  /\ (forall host portString,
        Method req = MethodConnect -> allowedPorts <> [] ->
        net.SplitHostPort (Host req) = Ok (host, portString) ->
        is_err (strconv.Atoi portString) = true ->
        status (RestrictConnectPorts allowedPorts ctx req next) = 400).
Proof.
  split; [|split].
  - intros Hm. unfold RestrictConnectPorts.
    apply String.eqb_neq in Hm. rewrite Hm. reflexivity.
  - intros ->. unfold RestrictConnectPorts. simpl.
    rewrite orb_true_r. reflexivity.
  - intros host portString Hm Hne Hs Ha. unfold RestrictConnectPorts.
    rewrite (restricted _ _ Hm Hne), Hs.
    destruct (strconv.Atoi portString); [discriminate | reflexivity].
Qed.

End PortRestriction.

Lemma RestrictConnectPorts_connect_witness :
  proxyfilters.status
    (proxyfilters.RestrictConnectPorts [443; 8443] tt
       (samples.request "CONNECT" "example.com" []) samples.accept) = 400
  /\ proxyfilters.status
    (proxyfilters.RestrictConnectPorts [443; 8443] tt
       (samples.request "CONNECT" "example.com:80" []) samples.accept) = 403
  /\ proxyfilters.RestrictConnectPorts [443; 8443] tt
       (samples.request "CONNECT" "example.com:443" []) samples.accept
     = samples.accept tt (samples.request "CONNECT" "example.com:443" []).
Proof.
  assert ([443; 8443] <> []) as Hne by discriminate.
  split; [|split].
  - destruct (RestrictConnectPorts_connect unit [443; 8443] tt
                (samples.request "CONNECT" "example.com" []) samples.accept
                eq_refl Hne) as (H & _ & _).
    apply H. reflexivity.
  - destruct (RestrictConnectPorts_connect unit [443; 8443] tt
                (samples.request "CONNECT" "example.com:80" []) samples.accept
                eq_refl Hne) as (_ & _ & H).
    destruct (H "example.com" "80" 80 eq_refl eq_refl) as [H403 _].
    apply H403. simpl. intros [E|[E|[]]]; discriminate E.
  - destruct (RestrictConnectPorts_connect unit [443; 8443] tt
                (samples.request "CONNECT" "example.com:443" []) samples.accept
                eq_refl Hne) as (_ & _ & H).
    destruct (H "example.com" "443" 443 eq_refl eq_refl) as [_ Hnext].
    apply Hnext. simpl. left. reflexivity.
Defined.

Lemma RestrictConnectPorts_unrestricted_witness :
  proxyfilters.RestrictConnectPorts [443] tt
    (samples.request "GET" "example.com:80" []) samples.accept
  = samples.accept tt (samples.request "GET" "example.com:80" [])
  /\ proxyfilters.RestrictConnectPorts [] tt
    (samples.request "CONNECT" "example.com:80" []) samples.accept
  = samples.accept tt (samples.request "CONNECT" "example.com:80" [])
  /\ proxyfilters.status
    (proxyfilters.RestrictConnectPorts [443] tt
       (samples.request "CONNECT" "example.com:https" []) samples.accept) = 400.
Proof.
  split; [|split].
  - destruct (RestrictConnectPorts_unrestricted unit [443] tt
                (samples.request "GET" "example.com:80" []) samples.accept)
      as (H & _ & _).
    apply H. discriminate.
  - destruct (RestrictConnectPorts_unrestricted unit [] tt
                (samples.request "CONNECT" "example.com:80" []) samples.accept)
      as (_ & H & _).
    apply H. reflexivity.
  - destruct (RestrictConnectPorts_unrestricted unit [443] tt
                (samples.request "CONNECT" "example.com:https" [])
                samples.accept) as (_ & _ & H).
    apply (H "example.com" "https");
      [reflexivity | discriminate | reflexivity | reflexivity].
Defined.

(** ** Traffic reporter *)

Section Reporter.

Import measured redis utils.

Lemma sending_nil rc : sending rc [] = rc.
Proof. destruct rc. unfold sending. simpl. rewrite app_nil_r. reflexivity. Qed.

Lemma sending_app rc cs ds : sending (sending rc cs) ds = sending rc (cs ++ ds).
Proof. unfold sending. simpl. rewrite app_assoc. reflexivity. Qed.

Lemma ReportTraffic_step rc t tt :
  identified t ->
  ReportTraffic rc (t :: tt) =
  match answer rc (sent rc) (hmset t) with
  | Some e => (Return (Some (redisError e)), sending rc [hmset t])
  | None =>
      match answer rc (sent rc ++ [hmset t]) (zadd t) with
      | Some e => (Return (Some (redisError e)), sending rc [hmset t; zadd t])
      | None => ReportTraffic (sending rc [hmset t; zadd t]) tt
      end
  end.
Proof.
  intros Hid. simpl.
  destruct (String.eqb_spec (ID t) EmptyString) as [E|_]; [contradiction|].
  unfold Do, sending. simpl.
  destruct (answer rc (sent rc) (hmset t)); [reflexivity|].
  rewrite <- app_assoc. simpl.
  destruct (answer rc (sent rc ++ [hmset t]) (zadd t)); reflexivity.
Qed.

(** While the writes succeed the loop goes on. *)
Lemma ReportTraffic_app rc tt1 rest :
  Forall identified tt1 ->
  first_failure (answer rc) (sent rc) (writes tt1) = None ->
  ReportTraffic rc (tt1 ++ rest) = ReportTraffic (sending rc (writes tt1)) rest.
Proof.
  intros Hid. revert rc.
  induction Hid as [|t tt1 Ht _ IH]; intros rc Hok.
  - simpl. rewrite sending_nil. reflexivity.
  - rewrite <- app_comm_cons, (ReportTraffic_step _ _ _ Ht).
    simpl in Hok.
    destruct (answer rc (sent rc) (hmset t)); [discriminate|].
    destruct (answer rc (sent rc ++ [hmset t]) (zadd t)); [discriminate|].
    destruct (first_failure (answer rc) ((sent rc ++ [hmset t]) ++ [zadd t])
                            (writes tt1)) as [[i e]|] eqn:E; [discriminate|].
    rewrite IH.
    + rewrite sending_app. reflexivity.
    + simpl. rewrite <- E. f_equal. rewrite <- app_assoc. reflexivity.
Qed.

(** The loop stops at the first write that fails. *)
Lemma ReportTraffic_failure rc tt i e :
  Forall identified tt ->
  first_failure (answer rc) (sent rc) (writes tt) = Some (i, e) ->
  ReportTraffic rc tt
  = (Return (Some (redisError e)), sending rc (firstn (S i) (writes tt))).
Proof.
  intros Hid. revert rc i.
  induction Hid as [|t tt Ht _ IH]; intros rc i Hf; [discriminate|].
  rewrite (ReportTraffic_step _ _ _ Ht). simpl in Hf.
  destruct (answer rc (sent rc) (hmset t)) as [e1|].
  { injection Hf as <- <-. reflexivity. }
  destruct (answer rc (sent rc ++ [hmset t]) (zadd t)) as [e2|].
  { injection Hf as <- <-. reflexivity. }
  destruct (first_failure (answer rc) ((sent rc ++ [hmset t]) ++ [zadd t])
                          (writes tt)) as [[j e']|] eqn:E; [|discriminate].
  injection Hf as <- <-.
  rewrite (IH _ j).
  - rewrite sending_app. reflexivity.
  - simpl. rewrite <- E. f_equal. rewrite <- app_assoc. reflexivity.
Qed.

(** The trackers after the one whose write fails play no part. *)
Lemma ReportTraffic_failure_app rc tt rest i e :
  Forall identified tt ->
  first_failure (answer rc) (sent rc) (writes tt) = Some (i, e) ->
  ReportTraffic rc (tt ++ rest)
  = (Return (Some (redisError e)), sending rc (firstn (S i) (writes tt))).
Proof.
  intros Hid. revert rc i.
  induction Hid as [|t tt Ht _ IH]; intros rc i Hf; [discriminate|].
  rewrite <- app_comm_cons, (ReportTraffic_step _ _ _ Ht). simpl in Hf.
  destruct (answer rc (sent rc) (hmset t)) as [e1|].
  { injection Hf as <- <-. reflexivity. }
  destruct (answer rc (sent rc ++ [hmset t]) (zadd t)) as [e2|].
  { injection Hf as <- <-. reflexivity. }
  destruct (first_failure (answer rc) ((sent rc ++ [hmset t]) ++ [zadd t])
                          (writes tt)) as [[j e']|] eqn:E; [|discriminate].
  injection Hf as <- <-.
  rewrite (IH _ j).
  - rewrite sending_app. reflexivity.
  - simpl. rewrite <- E. f_equal. rewrite <- app_assoc. reflexivity.
Qed.

(** Either every tracker has an identifier, or there is a first one
    without. *)
Lemma first_anonymous tt :
  Forall identified tt
  \/ exists tt1 t tt2,
       tt = (tt1 ++ t :: tt2)%list /\ Forall identified tt1
       /\ ID t = EmptyString.
Proof.
  induction tt as [|t tt IH]; [left; constructor|].
  destruct (String.eqb_spec (ID t) EmptyString) as [E|E].
  - right. exists [], t, tt. repeat split; [constructor | exact E].
  - destruct IH as [IH|(tt1 & t' & tt2 & -> & Hid & He)].
    + left. constructor; assumption.
    + right. exists (t :: tt1), t', tt2.
      repeat split; [constructor; assumption | exact He].
Qed.

(** C10, as the code has it.  [ReportTraffic] goes through the trackers
    in order and stops at the first event:
    - when it reaches a tracker with an empty identifier, every write
      for the trackers before it having succeeded, it panics; the
      writes made until then stay made;
    - when a write for an identified tracker fails before that, it
      returns that error, having sent the writes up to and including
      the failing one; the trackers that follow play no part, whether
      they have an identifier or not;
    - so it panics exactly when there is a tracker without identifier
      and no write for the trackers before the first such one fails;
    - when every tracker has an identifier it never panics; it returns
      an error exactly when one of the writes fails, and then it has
      sent the writes up to and including the first failing one and
      nothing after it; otherwise it returns nil after sending them
      all. *)
Theorem ReportTraffic_outcome (rc : Client) (tt : list TrafficTracker) :
  (forall (tt1 : list TrafficTracker) t tt2,
      tt = (tt1 ++ t :: tt2)%list -> Forall identified tt1 -> ID t = EmptyString ->
      first_failure (answer rc) (sent rc) (writes tt1) = None ->
      ReportTraffic rc tt
      = (Panic "empty key is not allowed", sending rc (writes tt1)))
  /\ (forall (tt1 tt2 : list TrafficTracker) i e,
      tt = (tt1 ++ tt2)%list -> Forall identified tt1 ->
      first_failure (answer rc) (sent rc) (writes tt1) = Some (i, e) ->
      ReportTraffic rc tt
      = (Return (Some (redisError e)),
         sending rc (firstn (S i) (writes tt1))))
  /\ ((exists msg, fst (ReportTraffic rc tt) = Panic msg)
      <-> exists (tt1 : list TrafficTracker) t tt2,
            tt = (tt1 ++ t :: tt2)%list /\ Forall identified tt1
            /\ ID t = EmptyString
            /\ first_failure (answer rc) (sent rc) (writes tt1) = None)
  /\ (Forall identified tt ->
      (forall msg, fst (ReportTraffic rc tt) <> Panic msg)
      /\ ((exists err, fst (ReportTraffic rc tt) = Return (Some err))
          <-> is_Some (first_failure (answer rc) (sent rc) (writes tt)))
      /\ match first_failure (answer rc) (sent rc) (writes tt) with
         | Some (i, e) =>
             ReportTraffic rc tt
             = (Return (Some (redisError e)),
                sending rc (firstn (S i) (writes tt)))
         | None => ReportTraffic rc tt = (Return None, sending rc (writes tt))
         end).
Proof.
  assert (forall (tt1 : list TrafficTracker) t tt2,
      tt = (tt1 ++ t :: tt2)%list -> Forall identified tt1 ->
      ID t = EmptyString ->
      first_failure (answer rc) (sent rc) (writes tt1) = None ->
      ReportTraffic rc tt
      = (Panic "empty key is not allowed", sending rc (writes tt1))) as Hpanic.
  { intros tt1 t tt2 -> Hid Hempty Hok.
    rewrite (ReportTraffic_app _ _ _ Hid Hok). simpl.
    rewrite Hempty. reflexivity. }
  assert (Forall identified tt ->
          match first_failure (answer rc) (sent rc) (writes tt) with
          | Some (i, e) =>
              ReportTraffic rc tt
              = (Return (Some (redisError e)),
                 sending rc (firstn (S i) (writes tt)))
          | None =>
              ReportTraffic rc tt = (Return None, sending rc (writes tt))
          end) as Hall.
  { intros Hid.
    destruct (first_failure (answer rc) (sent rc) (writes tt))
      as [[i e]|] eqn:E.
    - apply ReportTraffic_failure; assumption.
    - rewrite <- (app_nil_r tt) at 1.
      rewrite (ReportTraffic_app _ _ _ Hid E). reflexivity. }
  split; [exact Hpanic|]. split; [|split].
  - intros tt1 tt2 i e -> Hid Hf. apply ReportTraffic_failure_app; assumption.
  - split.
    + intros [msg Hmsg].
      destruct (first_anonymous tt) as [Hid|(tt1 & t & tt2 & Heq & Hid & He)].
      * specialize (Hall Hid).
        destruct (first_failure (answer rc) (sent rc) (writes tt))
          as [[i e]|]; rewrite Hall in Hmsg; discriminate Hmsg.
      * exists tt1, t, tt2. repeat split; try assumption.
        destruct (first_failure (answer rc) (sent rc) (writes tt1))
          as [[i e]|] eqn:E; [|reflexivity].
        subst tt.
        rewrite (ReportTraffic_failure_app _ _ _ _ _ Hid E) in Hmsg.
        discriminate Hmsg.
    + intros (tt1 & t & tt2 & Heq & Hid & He & Hok).
      rewrite (Hpanic tt1 t tt2 Heq Hid He Hok). eexists. reflexivity.
  - intros Hid. specialize (Hall Hid).
    split; [|split]; [| |exact Hall].
    + intros msg.
      destruct (first_failure (answer rc) (sent rc) (writes tt)) as [[i e]|];
        rewrite Hall; discriminate.
    + destruct (first_failure (answer rc) (sent rc) (writes tt)) as [[i e]|];
        rewrite Hall; simpl; split.
      * intros _. eexists. reflexivity.
      * intros _. eexists. reflexivity.
      * intros [err Herr]. discriminate Herr.
      * intros [x Hx]. discriminate Hx.
Qed.

End Reporter.

Lemma ReportTraffic_outcome_witness :
  utils.ReportTraffic samples.healthy samples.trackers
  = (utils.Panic "empty key is not allowed",
     utils.sending samples.healthy (utils.writes [samples.alice]))
  /\ utils.ReportTraffic samples.down samples.trackers
     = (utils.Return (Some (utils.redisError "connection refused")),
        utils.sending samples.down [utils.hmset samples.alice])
  /\ utils.ReportTraffic samples.noZAdd [samples.alice]
    = (utils.Return (Some (utils.redisError "READONLY")),
       utils.sending samples.noZAdd (utils.writes [samples.alice])).
Proof.
  assert (Forall utils.identified [samples.alice]) as Hid
      by (constructor; [discriminate | constructor]).
  split; [|split].
  - destruct (ReportTraffic_outcome samples.healthy samples.trackers)
      as [H _].
    apply (H [samples.alice] samples.anonymous []);
      [reflexivity | exact Hid | reflexivity | reflexivity].
  - destruct (ReportTraffic_outcome samples.down samples.trackers)
      as (_ & H & _).
    apply (H [samples.alice] [samples.anonymous] 0%nat "connection refused");
      [reflexivity | exact Hid | reflexivity].
  - destruct (ReportTraffic_outcome samples.noZAdd [samples.alice])
      as (_ & _ & _ & H).
    destruct (H Hid) as (_ & _ & Hstop). exact Hstop.
Defined.

(** C10 as stated fails: a tracker with an empty identifier does not
    make [ReportTraffic] panic when a write for an earlier tracker fails;
    the call returns that error and never looks at the later tracker. *)
Lemma ReportTraffic_empty_id_not_reached :
  Exists (fun t => measured.ID t = EmptyString) samples.trackers
  /\ fst (utils.ReportTraffic samples.down samples.trackers)
     = utils.Return (Some (utils.redisError "connection refused")).
Proof.
  split.
  - apply Exists_cons_tl, Exists_cons_hd. reflexivity.
  - reflexivity.
Qed.

(** ** The relay: close guard and idle timer *)

Section RelayFacts.

Import relay.

Variable idleTimeout : Z.
Variable activeOnWrite : bool.

Local Abbreviation step := (relay.step idleTimeout activeOnWrite).
Local Abbreviation run := (relay.run idleTimeout activeOnWrite).
Local Abbreviation exec := (relay.exec idleTimeout activeOnWrite).
Local Abbreviation reachable := (relay.reachable idleTimeout activeOnWrite).
Local Abbreviation onTime := (relay.onTime idleTimeout).
Local Abbreviation punctual := (relay.punctual idleTimeout activeOnWrite).

Lemma once_le b : (once b <= 1)%nat.
Proof. destruct b; simpl; lia. Qed.

Lemma invariant_established t0 : invariant (established t0).
Proof. constructor; reflexivity. Qed.

Lemma invariant_step t l t' : invariant t -> step t l = Some t' -> invariant t'.
Proof.
  intros [] Hs.
  destruct t as [pu pd dn m fi cc oc rc ti nw la lc]; simpl in *.
  destruct l as [f o| f | d |]; simpl in Hs.
  - unfold copy in Hs. destruct f, o; simpl in Hs;
      destruct pu, pd; simpl in Hs; try discriminate;
      repeat match type of Hs with
             | context [if ?b then _ else _] => destruct b
             end; try discriminate;
      injection Hs as <-; constructor; simpl in *; assumption.
  - unfold do in Hs. destruct f; simpl in Hs;
      destruct pu, pd, dn, m; simpl in *; try discriminate;
      injection Hs as <-; constructor; simpl in *;
      try discriminate; try reflexivity; try assumption;
      try (destruct ti; simpl in *; lia).
  - unfold tick in Hs. destruct (0 <? d); [|discriminate].
    injection Hs as <-. constructor; simpl; assumption.
  - unfold idle in Hs. simpl in Hs. destruct ti; try discriminate.
    destruct (idleTimeout <=? nw - la); [|discriminate].
    injection Hs as <-.
    constructor; simpl in *; first [assumption | lia | exact I].
Qed.

Lemma run_cons t l sched :
  run t (l :: sched)
  = match step t l with Some t' => run t' sched | None => None end.
Proof. reflexivity. Qed.

Lemma invariant_run sched : forall t t',
  invariant t -> run t sched = Some t' -> invariant t'.
Proof.
  induction sched as [|l sched IH]; simpl; intros t t' Hi Hr.
  - injection Hr as <-. exact Hi.
  - destruct (step t l) as [t1|] eqn:E; [|discriminate].
    eapply IH; [eapply invariant_step; eassumption | exact Hr].
Qed.

Lemma invariant_reachable t : reachable t -> invariant t.
Proof.
  intros (t0 & sched & Hr).
  eapply invariant_run; [apply invariant_established | exact Hr].
Qed.

(** A schedule passed over by [exec] is a schedule [run] accepts. *)
Lemma exec_run (P : Label -> Prop) sched : forall t,
  Forall P sched ->
  exists sched', Forall P sched' /\ run t sched' = Some (exec t sched).
Proof.
  induction sched as [|l sched IH]; intros t HP.
  - exists []. split; [constructor | reflexivity].
  - inversion HP as [|? ? Hl Hrest]; subst. simpl.
    destruct (step t l) as [t1|] eqn:E.
    + destruct (IH t1 Hrest) as (sched' & HP' & Hr).
      exists (l :: sched'). split; [constructor; assumption|].
      simpl. rewrite E. exact Hr.
    + destruct (IH t Hrest) as (sched' & HP' & Hr).
      exists sched'. split; assumption.
Qed.

Lemma exec_reachable t sched : reachable t -> reachable (exec t sched).
Proof.
  intros (t0 & s0 & Hr).
  destruct (exec_run (fun _ => True) sched t) as (sched' & _ & Hr').
  { clear. induction sched; constructor; auto. }
  exists t0, (s0 ++ sched')%list.
  clear -Hr Hr'. revert Hr. generalize (established t0) as t1.
  induction s0 as [|l s0 IH]; simpl; intros t1 Hr.
  - injection Hr as ->. exact Hr'.
  - destruct (step t1 l); [apply IH; exact Hr | discriminate].
Qed.

(** No deadlock inside the guard: while a flow is busy, some flow can
    take its next step in [Do]; the step brings that flow closer to its
    return and leaves the copy loops alone. *)
Lemma do_progress t :
  invariant t -> busy (pcUp t) || busy (pcDown t) = true ->
  exists f t', relay.do f t = Some t'
    /\ (weight t' < weight t)%nat
    /\ (pcUp t = Copying <-> pcUp t' = Copying)
    /\ (pcDown t = Copying <-> pcDown t' = Copying).
Proof.
  intros [] Hbusy.
  destruct t as [pu pd dn m fi cc oc rc ti nw la lc]; simpl in *.
  destruct (busy pu && negb (match pu with Locking => m | _ => false end))
    eqn:Eup.
  - exists Up. unfold relay.do, weight. simpl.
    destruct pu, dn, m; simpl in *; try discriminate;
      eexists; (split; [reflexivity|]); simpl;
      (split; [lia|]); split; split; congruence.
  - exists Down. unfold relay.do, weight. simpl.
    destruct pu, pd, dn, m; simpl in *; try discriminate;
      eexists; (split; [reflexivity|]); simpl;
      (split; [lia|]); split; split; congruence.
Qed.

Lemma drain_bounded n : forall t,
  invariant t -> (weight t <= n)%nat ->
  exists sched t', Forall isDo sched /\ run t sched = Some t'
    /\ busy (pcUp t') = false /\ busy (pcDown t') = false
    /\ (pcUp t = Copying <-> pcUp t' = Copying)
    /\ (pcDown t = Copying <-> pcDown t' = Copying).
Proof.
  induction n as [|n IH]; intros t Hi Hw.
  - exists [], t. unfold weight in Hw.
    destruct (pcUp t), (pcDown t); simpl in Hw; try lia.
    repeat split; auto.
  - destruct (busy (pcUp t) || busy (pcDown t)) eqn:Hb.
    + destruct (do_progress t Hi Hb) as (f & t1 & Hd & Hlt & Hu & Hd').
      assert (invariant t1) as Hi1
          by (apply (invariant_step t (Do f)); assumption).
      destruct (IH t1 Hi1 ltac:(lia))
        as (sched & t' & HP & Hr & Hbu & Hbd & Hu' & Hd'').
      exists (Do f :: sched), t'. split; [constructor; [exact I | exact HP]|].
      split; [simpl; rewrite Hd; exact Hr|].
      repeat split; try assumption; tauto.
    + apply orb_false_iff in Hb as [Hbu Hbd].
      exists [], t. repeat split; auto.
Qed.

(** Once a copy has ended, the steps of the flows inside [Do] bring the
    guard to its end: it has run once, both connections are closed, and
    every flow that had left its copy loop has returned. *)
Lemma drain t :
  invariant t -> pcUp t <> Copying \/ pcDown t <> Copying ->
  exists sched t', Forall isDo sched /\ run t sched = Some t'
    /\ done t' = true /\ fired t' = 1%nat
    /\ clientClosed t' = true /\ targetClosed t' = true
    /\ (pcUp t <> Copying -> pcUp t' = Returned)
    /\ (pcDown t <> Copying -> pcDown t' = Returned).
Proof.
  intros Hi Hleft.
  destruct (drain_bounded (weight t) t Hi (le_n _))
    as (sched & t' & HP & Hr & Hbu & Hbd & Hu & Hd).
  exists sched, t'. split; [exact HP|]. split; [exact Hr|].
  assert (invariant t') as [] by (eapply invariant_run; eassumption).
  assert (pcUp t' = Returned \/ pcDown t' = Returned) as Hret.
  { destruct Hleft as [H|H]; [left|right].
    - destruct (pcUp t'); simpl in Hbu; try discriminate; tauto.
    - destruct (pcDown t'); simpl in Hbd; try discriminate; tauto. }
  assert (done t' = true) as Hdone.
  { destruct (done t'); [reflexivity|].
    destruct Hret as [H|H]; rewrite H in inv_saw0; simpl in inv_saw0;
      [discriminate|].
    rewrite orb_true_r in inv_saw0. discriminate. }
  unfold clientClosed, targetClosed.
  rewrite Hdone in *. simpl in *.
  rewrite inv_raw0, inv_out0, inv_client0, inv_fired0. simpl.
  repeat split.
  - intros H. destruct (pcUp t'); simpl in Hbu; try discriminate; tauto.
  - intros H. destruct (pcDown t'); simpl in Hbd; try discriminate; tauto.
Qed.

(** C3.  In every state an established tunnel can reach, whatever the
    schedule of the two copy loops, of the idle timer and of the clock,
    and however each copy ends (end of stream, error, the timer closing
    the target connection): [closeConns] has been entered at most once
    and has called [Close] at most once on each connection; as soon as a
    [closeOnce.Do] has returned (or [done] is set), it has been entered
    exactly once and both the client and the target connection are
    closed; and once either copy has ended, the flows can always finish
    their [Do] calls, so the guard does fire. *)
Theorem close_guard_fires_once t :
  reachable t ->
  (fired t <= 1)%nat /\ (clientCloses t <= 1)%nat /\ (outCloses t <= 1)%nat
  /\ (pcUp t = Returned \/ pcDown t = Returned \/ done t = true ->
      fired t = 1%nat /\ clientClosed t = true /\ targetClosed t = true)
  /\ (pcUp t <> Copying \/ pcDown t <> Copying ->
      exists sched t', Forall isDo sched /\ run t sched = Some t'
        /\ done t' = true /\ fired t' = 1%nat
        /\ clientClosed t' = true /\ targetClosed t' = true
        /\ (pcUp t <> Copying -> pcUp t' = Returned)
        /\ (pcDown t <> Copying -> pcDown t' = Returned)).
Proof.
  intros Hr. pose proof (invariant_reachable t Hr) as Hi.
  split; [|split; [|split; [|split]]].
  - destruct Hi. rewrite inv_fired0. apply once_le.
  - destruct Hi. rewrite inv_client0. apply once_le.
  - destruct Hi. rewrite inv_out0. apply once_le.
  - intros H. destruct Hi.
    assert (done t = true) as Hdone.
    { destruct (done t); [reflexivity|].
      destruct H as [H|[H|H]]; [| |discriminate];
        rewrite H in inv_saw0; simpl in inv_saw0; [discriminate|].
      rewrite orb_true_r in inv_saw0. discriminate. }
    unfold clientClosed, targetClosed.
    rewrite inv_raw0, inv_out0, inv_client0, inv_fired0, Hdone.
    repeat split.
  - apply drain. exact Hi.
Qed.

(** Nothing reopens the target connection. *)
Lemma targetClosed_step t l t' :
  step t l = Some t' -> targetClosed t = true -> targetClosed t' = true.
Proof.
  unfold targetClosed. intros Hs Hc. apply Nat.ltb_lt in Hc. apply Nat.ltb_lt.
  destruct t as [pu pd dn m fi cc oc rc ti nw la lc]; simpl in *.
  destruct l as [f o|f|d|]; simpl in Hs.
  - unfold copy in Hs. destruct f, o; simpl in Hs;
      destruct pu, pd; simpl in Hs; try discriminate;
      repeat match type of Hs with
             | context [if ?b then _ else _] => destruct b
             end; try discriminate;
      injection Hs as <-; simpl; exact Hc.
  - unfold relay.do in Hs. destruct f; simpl in Hs;
      destruct pu, pd, dn, m; simpl in *; try discriminate;
      injection Hs as <-; simpl; lia.
  - unfold tick in Hs. destruct (0 <? d); [|discriminate].
    injection Hs as <-. exact Hc.
  - unfold idle in Hs. simpl in Hs. destruct ti; try discriminate.
    destruct (idleTimeout <=? nw - la); [|discriminate].
    injection Hs as <-. simpl. lia.
Qed.

(** With the target connection closed no bytes move, so every step of
    a flow brings that flow closer to its return; the clock changes
    nothing there. *)
Lemma weight_step t l t' :
  step t l = Some t' -> targetClosed t = true ->
  (weight t' + (if isFlow l then 1 else 0) <= weight t)%nat.
Proof.
  unfold targetClosed, weight. intros Hs Hc.
  destruct t as [pu pd dn m fi cc oc rc ti nw la lc]; simpl in *.
  destruct l as [f o|f|d|]; simpl in Hs.
  - unfold copy, clientClosed, targetClosed in Hs. simpl in Hs.
    rewrite Hc, orb_true_r in Hs.
    destruct f, o; simpl in Hs;
      destruct pu, pd; simpl in Hs; try discriminate;
      repeat match type of Hs with
             | context [if ?b then _ else _] => destruct b
             end; try discriminate;
      injection Hs as <-; simpl; lia.
  - unfold relay.do in Hs. destruct f; simpl in Hs;
      destruct pu, pd, dn, m; simpl in *; try discriminate;
      injection Hs as <-; simpl; lia.
  - unfold tick in Hs. destruct (0 <? d); [|discriminate].
    injection Hs as <-. simpl. lia.
  - unfold idle in Hs. simpl in Hs. destruct ti; try discriminate.
    destruct (idleTimeout <=? nw - la); [|discriminate].
    injection Hs as <-. simpl. lia.
Qed.

Lemma weight_run sched : forall t t',
  run t sched = Some t' -> targetClosed t = true ->
  targetClosed t' = true
  /\ (length (List.filter isFlow sched) + weight t' <= weight t)%nat.
Proof.
  induction sched as [|l sched IH]; simpl; intros t t' Hr Hc.
  - injection Hr as <-. split; [exact Hc | lia].
  - destruct (step t l) as [t1|] eqn:E; [|discriminate].
    pose proof (weight_step _ _ _ E Hc) as Hw.
    destruct (IH t1 t' Hr (targetClosed_step _ _ _ E Hc)) as [Hc' Hw'].
    split; [exact Hc'|]. destruct (isFlow l); simpl; lia.
Qed.

(** With the timer on time, the clock never passes the deadline of an
    armed timer. *)
Lemma deadline_step t l t' :
  0 <= idleTimeout ->
  step t l = Some t' -> onTime t l = true ->
  (timer t = Armed -> now t <= lastActive t + idleTimeout) ->
  timer t' = Armed -> now t' <= lastActive t' + idleTimeout.
Proof.
  intros Hpos Hs Hon Hd.
  destruct t as [pu pd dn m fi cc oc rc ti nw la lc]; simpl in *.
  destruct l as [f o|f|d|]; simpl in Hs.
  - unfold copy in Hs. destruct f, o; simpl in Hs;
      destruct pu, pd; simpl in Hs; try discriminate;
      repeat match type of Hs with
             | context [if ?b then _ else _] => destruct b
             end; try discriminate;
      injection Hs as <-; simpl; intros; first [lia | auto].
  - unfold relay.do in Hs. destruct f; simpl in Hs;
      destruct pu, pd, dn, m; simpl in *; try discriminate;
      injection Hs as <-; simpl; try exact Hd;
      destruct ti; simpl; intros; first [discriminate | auto].
  - unfold tick in Hs. destruct (0 <? d); [|discriminate].
    injection Hs as <-. simpl. intros ->.
    unfold onTime in Hon. simpl in Hon. apply Z.leb_le in Hon. exact Hon.
  - unfold idle in Hs. simpl in Hs. destruct ti; try discriminate.
    destruct (idleTimeout <=? nw - la); [|discriminate].
    injection Hs as <-. simpl. discriminate.
Qed.

Lemma deadline_run sched : forall t t',
  0 <= idleTimeout ->
  run t sched = Some t' -> punctual t sched = true ->
  (timer t = Armed -> now t <= lastActive t + idleTimeout) ->
  timer t' = Armed -> now t' <= lastActive t' + idleTimeout.
Proof.
  induction sched as [|l sched IH]; simpl; intros t t' Hpos Hr Hp Hd.
  - injection Hr as <-. exact Hd.
  - apply andb_prop in Hp as [Hon Hp].
    destruct (step t l) as [t1|] eqn:E; [|discriminate].
    apply (IH t1 t' Hpos Hr Hp).
    apply (deadline_step t l t1 Hpos E Hon Hd).
Qed.

(** As long as no copy ends and the timer does not fire, the tunnel
    stands. *)
Lemma quiet_run sched : forall t t',
  run t sched = Some t' -> Forall quiet sched ->
  pcUp t = Copying /\ pcDown t = Copying /\ fired t = 0%nat
  /\ clientCloses t = 0%nat /\ rawCloses t = 0%nat /\ timer t = Armed ->
  pcUp t' = Copying /\ pcDown t' = Copying /\ fired t' = 0%nat
  /\ clientCloses t' = 0%nat /\ rawCloses t' = 0%nat /\ timer t' = Armed.
Proof.
  induction sched as [|l sched IH]; simpl; intros t t' Hr Hq Ht.
  - injection Hr as <-. exact Ht.
  - inversion Hq as [|? ? Hl Hrest]; subst.
    destruct (step t l) as [t1|] eqn:E; [|discriminate].
    apply (IH t1 t' Hr Hrest).
    destruct Ht as (H1 & H2 & H3 & H4 & H5 & H6).
    destruct t as [pu pd dn m fi cc oc rc ti nw la lc]; simpl in *; subst.
    destruct l as [f o|f|d|]; simpl in Hl, E; try contradiction.
    + destruct o; try contradiction.
      unfold copy in E. destruct f; simpl in E; injection E as <-;
        destruct activeOnWrite; repeat split.
    + unfold tick in E. destruct (0 <? d); [|discriminate].
      injection E as <-. repeat split.
Qed.

(** When no flow can take a step of its own, the tunnel is torn down
    and both flows have returned. *)
Lemma settled t :
  invariant t -> targetClosed t = true ->
  (forall l, forced t l = true -> step t l = None) ->
  tornDown t = true /\ fired t = 1%nat
  /\ pcUp t = Returned /\ pcDown t = Returned.
Proof.
  intros Hi Hc Hq.
  assert (pcDown t <> Copying) as Hd.
  { intros E. specialize (Hq (Copy Down Fail) Hc).
    simpl in Hq. unfold copy in Hq. simpl in Hq. rewrite E in Hq.
    discriminate Hq. }
  assert (busy (pcUp t) || busy (pcDown t) = false) as Hb.
  { destruct (busy (pcUp t) || busy (pcDown t)) eqn:Hb; [|reflexivity].
    destruct (do_progress t Hi Hb) as (f & t1 & Hdo & _).
    specialize (Hq (Do f) eq_refl). simpl in Hq. congruence. }
  apply orb_false_iff in Hb as [Hbu Hbd].
  assert (pcDown t = Returned) as Hret
      by (destruct (pcDown t); simpl in Hbd; try discriminate; congruence).
  destruct Hi.
  assert (done t = true) as Hdone.
  { destruct (done t); [reflexivity|].
    rewrite Hret in inv_saw0. simpl in inv_saw0.
    rewrite orb_true_r in inv_saw0. discriminate. }
  assert (clientClosed t = true) as Hcc.
  { unfold clientClosed. rewrite inv_client0, Hdone. reflexivity. }
  assert (pcUp t = Returned) as Hup.
  { destruct (pcUp t) eqn:E; simpl in Hbu; try discriminate; [|reflexivity].
    specialize (Hq (Copy Up Fail) Hcc).
    simpl in Hq. unfold copy in Hq. simpl in Hq. rewrite E in Hq.
    discriminate Hq. }
  unfold tornDown. rewrite Hdone, Hcc, Hc, inv_fired0, Hdone.
  repeat split; assumption.
Qed.


End RelayFacts.

Lemma close_guard_fires_once_witness :
  relay.fired samples.afterHangUp = 1%nat
  /\ relay.clientClosed samples.afterHangUp = true
  /\ relay.targetClosed samples.afterHangUp = true.
Proof.
  assert (relay.reachable 10 true samples.afterHangUp) as Hr
      by (exists 0, samples.hangUp; vm_compute; reflexivity).
  destruct (close_guard_fires_once 10 true samples.afterHangUp Hr)
    as (_ & _ & _ & H & _).
  apply H. right. left. reflexivity.
Defined.


(** Both copies end before either flow has the guard: the flow that
    comes second waits at the mutex, then finds [done] set and returns
    without running [closeConns] again. *)
Example both_copies_end_together :
  let sched :=
    [relay.Copy relay.Up relay.EOF; relay.Copy relay.Down relay.Fail;
     relay.Do relay.Up; relay.Do relay.Down; relay.Do relay.Up] in
  let rest :=
    [relay.Do relay.Up; relay.Do relay.Up; relay.Do relay.Up;
     relay.Do relay.Up; relay.Do relay.Up;
     relay.Do relay.Down; relay.Do relay.Down; relay.Do relay.Down] in
  (exists t, relay.run 10 true (relay.established 0) sched = Some t
     /\ relay.pcUp t = relay.Locked /\ relay.pcDown t = relay.Locking
     /\ relay.step 10 true t (relay.Do relay.Down) = None)
  /\ (exists t, relay.run 10 true (relay.established 0) (sched ++ rest) = Some t
     /\ relay.pcUp t = relay.Returned /\ relay.pcDown t = relay.Returned
     /\ relay.fired t = 1%nat /\ relay.clientCloses t = 1%nat
     /\ relay.outCloses t = 1%nat).
Proof.
  split; eexists; (split; [vm_compute; reflexivity|]);
    repeat split; reflexivity.
Qed.

(** The idle timer ends a silent tunnel: it closes the target
    connection, the copy from the target fails, and the guard closes
    both connections, once. *)
Example idle_timeout_ends_tunnel :
  exists t,
    relay.run 10 true (relay.established 0)
      [relay.Tick 10; relay.Idle; relay.Copy relay.Down relay.Fail;
       relay.Do relay.Down; relay.Do relay.Down; relay.Do relay.Down;
       relay.Do relay.Down; relay.Do relay.Down; relay.Do relay.Down;
       relay.Do relay.Down; relay.Copy relay.Up relay.Fail;
       relay.Do relay.Up] = Some t
    /\ relay.tornDown t = true /\ relay.fired t = 1%nat
    /\ relay.pcUp t = relay.Returned /\ relay.pcDown t = relay.Returned.
Proof.
  eexists. split; [vm_compute; reflexivity|]. repeat split; reflexivity.
Qed.


(** ** The filter chain of [NewServer] *)

Section Pipeline.

Import http middleware server.

Variable token : string.
Variable maxConns : Z.

Local Abbreviation handle := (server.handle token maxConns).
Local Abbreviation goodToken := (server.goodToken token).
Local Abbreviation wrongToken := (server.wrongToken token).

Lemma Lookup_token_after_uid h :
  Lookup (Del h devicefilter.uidHeader) tokenfilter.tokenHeader
  = Lookup h tokenfilter.tokenHeader.
Proof.
  unfold Lookup, Del. rewrite lookup_delete_ne; [reflexivity | discriminate].
Qed.

(** The request stops at the identity filter. *)
Lemma handle_noUID env req :
  noUID req ->
  handle env req = utils_respond.RespondNotFound (enter Device fresh).
Proof.
  unfold noUID, server.handle. simpl. unfold devicefilter.New, devicefilter.ServeHTTP.
  intros ->. reflexivity.
Qed.

(** The request passes the identity filter and stops at the token filter. *)
Lemma handle_badToken env req uid :
  hasUID req uid -> noToken req \/ wrongToken req ->
  handle env req
  = utils_respond.RespondNotFound
      (enter Token (setContext "uid" uid (enter Device fresh))).
Proof.
  unfold hasUID, noToken, server.wrongToken, server.handle. simpl.
  unfold devicefilter.New, devicefilter.ServeHTTP.
  intros -> Hbad.
  unfold tokenfilter.New, tokenfilter.ServeHTTP. simpl.
  rewrite Lookup_token_after_uid.
  destruct Hbad as [->|(t & -> & Hne)]; [reflexivity|].
  apply String.eqb_neq in Hne. rewrite Hne. reflexivity.
Qed.

(** The request passes both and reaches the CONNECT handler. *)
Lemma handle_authenticated env req uid :
  hasUID req uid -> goodToken req ->
  exists req' x,
    handle env req
    = httpconnect.ServeHTTP (connectComponent (NewServer token maxConns))
                            env req' x
    /\ Method req' = Method req /\ Host req' = Host req
    /\ Lookup (Header req') tokenfilter.tokenHeader = None
    /\ Lookup (Header req') devicefilter.uidHeader = None
    /\ written x = [] /\ hijacked x = false /\ tunnel x = None
    /\ entered x = [Device; Token; LanternPro].
Proof.
  unfold hasUID, server.goodToken, server.handle. simpl.
  unfold devicefilter.New, devicefilter.ServeHTTP.
  intros -> Htok.
  unfold tokenfilter.New, tokenfilter.ServeHTTP. simpl.
  rewrite Lookup_token_after_uid, Htok, String.eqb_refl.
  unfold profilter.New, profilter.ServeHTTP. simpl.
  rewrite lookup_insert_eq.
  assert (Lookup (Del (Del (Header req) devicefilter.uidHeader)
                      tokenfilter.tokenHeader)
                 tokenfilter.tokenHeader = None
          /\ Lookup (Del (Del (Header req) devicefilter.uidHeader)
                         tokenfilter.tokenHeader)
                    devicefilter.uidHeader = None) as [Ht Hu].
  { unfold Lookup, Del. rewrite lookup_delete_eq.
    rewrite lookup_delete_ne by discriminate.
    rewrite lookup_delete_eq. split; reflexivity. }
  destruct (isPro env uid); eexists _, _; (split; [reflexivity|]);
    simpl; rewrite Ht, Hu; repeat split.
Qed.

(** What the CONNECT handler adds to the record of components entered. *)
Lemma connect_enters env req x :
  entered (httpconnect.ServeHTTP (connectComponent (NewServer token maxConns))
                                 env req x)
  = (entered x
     ++ if String.eqb (Method req) "CONNECT" then [Connect]
        else [Connect; Forward])%list.
Proof.
  unfold httpconnect.ServeHTTP. simpl.
  destruct (String.eqb (Method req) "CONNECT"); simpl.
  - unfold httpconnect.intercept.
    destruct (hijack env); simpl; [|reflexivity].
    destruct (dial env (Host req)); reflexivity.
  - unfold forward.New, forward.ServeHTTP.
    destruct (roundTrip env req); simpl; rewrite <- app_assoc; reflexivity.
Qed.

(** C1, as the code has it.  Every request goes through the components
    in the one order [NewServer] fixes: client-identity (UID) extraction
    first, then the authentication-token check, then tier
    classification, then the CONNECT handler, which passes requests that
    are not CONNECT on to the forwarder.  Nothing is reordered, and a
    component is left out only when one before it has answered the
    request: without UID the request stops at the identity filter, with
    a missing or wrong token at the token filter. *)
Theorem filters_run_in_order env req :
  entered (handle env req) `prefix_of` chain
  /\ (noUID req -> entered (handle env req) = [Device])
  /\ (forall uid, hasUID req uid -> noToken req \/ wrongToken req ->
        entered (handle env req) = [Device; Token])
  /\ (forall uid, hasUID req uid -> goodToken req ->
        entered (handle env req)
        = if String.eqb (Method req) "CONNECT"
          then [Device; Token; LanternPro; Connect]
          else [Device; Token; LanternPro; Connect; Forward]).
Proof.
  assert (noUID req -> entered (handle env req) = [Device]) as H1.
  { intros H. rewrite (handle_noUID _ _ H). reflexivity. }
  assert (forall uid, hasUID req uid -> noToken req \/ wrongToken req ->
            entered (handle env req) = [Device; Token]) as H2.
  { intros uid Hu Hb. rewrite (handle_badToken _ _ _ Hu Hb). reflexivity. }
  assert (forall uid, hasUID req uid -> goodToken req ->
            entered (handle env req)
            = if String.eqb (Method req) "CONNECT"
              then [Device; Token; LanternPro; Connect]
              else [Device; Token; LanternPro; Connect; Forward]) as H3.
  { intros uid Hu Hg.
    destruct (handle_authenticated env req uid Hu Hg)
      as (req' & x & -> & Hm & _ & _ & _ & _ & _ & _ & He).
    rewrite connect_enters, He, Hm.
    destruct (String.eqb (Method req) "CONNECT"); reflexivity. }
  split; [|split; [exact H1 | split; [exact H2 | exact H3]]].
  destruct (Lookup (Header req) devicefilter.uidHeader) as [uid|] eqn:Eu.
  - destruct (Lookup (Header req) tokenfilter.tokenHeader) as [t|] eqn:Et.
    + destruct (String.eqb_spec t token) as [->|Hne].
      * rewrite (H3 uid Eu Et).
        destruct (String.eqb (Method req) "CONNECT");
          [exists [Forward] | exists []]; reflexivity.
      * rewrite (H2 uid Eu); [exists [LanternPro; Connect; Forward]; reflexivity|].
        right. exists t. split; assumption.
    + rewrite (H2 uid Eu); [exists [LanternPro; Connect; Forward]; reflexivity|].
      left. exact Et.
  - rewrite (H1 Eu). exists [Token; LanternPro; Connect; Forward]. reflexivity.
Qed.

(** C7.  A request of any method that lacks the token header, carries a
    wrong token, or lacks the client-identifier header is answered with
    exactly one response, the 404 of the filters; the response is the
    same one in all these cases, so a request without the header and a
    request with a wrong value cannot be told apart by their answers. *)
Theorem auth_failure_is_not_found env req :
  noToken req \/ wrongToken req \/ noUID req ->
  written (handle env req) = [notFound]
  /\ statuses (handle env req) = [404]
  /\ (forall env' req', noToken req' \/ wrongToken req' \/ noUID req' ->
        written (handle env' req') = written (handle env req)).
Proof.
  assert (forall env req, noToken req \/ wrongToken req \/ noUID req ->
            written (handle env req) = [notFound]) as H.
  { clear. intros env req Hbad.
    destruct (Lookup (Header req) devicefilter.uidHeader) as [uid|] eqn:Eu.
    - assert (noToken req \/ wrongToken req) as Hb.
      { destruct Hbad as [?|[?|Hn]]; auto.
        unfold noUID in Hn. congruence. }
      rewrite (handle_badToken _ _ _ Eu Hb). reflexivity.
    - rewrite (handle_noUID _ _ Eu). reflexivity. }
  intros Hbad. split; [|split].
  - apply H, Hbad.
  - unfold statuses. rewrite (H _ _ Hbad). reflexivity.
  - intros env' req' Hbad'. rewrite (H _ _ Hbad), (H _ _ Hbad'). reflexivity.
Qed.

(** C2 (the code departs from it).  For a CONNECT request that passes
    both filters, when the dial to the target fails [intercept] returns
    at once: the success status stays the only response written, but the
    client connection, hijacked from the server, is not closed by
    anyone: no [Close] is ever called on it. *)
Theorem connect_dial_failure env req uid :
  Method req = "CONNECT" -> hasUID req uid -> goodToken req ->
  hijack env = true -> dial env (Host req) = None ->
  statuses (handle env req) = [200]
  /\ hijacked (handle env req) = true
  /\ tunnel (handle env req) = None
  /\ clientClosed (handle env req) = false.
Proof.
  intros Hm Hu Hg Hh Hd.
  destruct (handle_authenticated env req uid Hu Hg)
    as (req' & x & -> & Hm' & Hhost & _ & _ & Hw & Hj & Ht & _).
  unfold httpconnect.ServeHTTP, httpconnect.intercept, clientClosed, statuses.
  rewrite Hm', Hm, Hhost, Hh, Hd. simpl. rewrite Hw, Ht. repeat split.
Qed.

End Pipeline.

(** C1 as stated fails: the token check is not the first filter.  A
    request with a valid token and no client identifier is turned away
    by the identity filter; the token filter never sees it. *)
Lemma token_check_is_not_first :
  middleware.entered
    (server.handle samples.validToken 0 samples.online samples.connectNoUID)
  = [middleware.Device]
  /\ ~ (forall env req,
         middleware.entered (server.handle samples.validToken 0 env req)
         `prefix_of` [middleware.Token; middleware.Device;
                      middleware.LanternPro; middleware.Connect;
                      middleware.Forward]).
Proof.
  assert (middleware.entered
            (server.handle samples.validToken 0 samples.online samples.connectNoUID)
          = [middleware.Device]) as H by (vm_compute; reflexivity).
  split; [exact H|].
  intros Hall. specialize (Hall samples.online samples.connectNoUID).
  rewrite H in Hall. destruct Hall as [k Hk]. discriminate Hk.
Qed.

Lemma filters_run_in_order_witness :
  middleware.entered
    (server.handle samples.validToken 0 samples.online samples.connectNoUID)
  = [middleware.Device]
  /\ middleware.entered
    (server.handle samples.validToken 0 samples.online samples.connectBadToken)
  = [middleware.Device; middleware.Token]
  /\ middleware.entered
    (server.handle samples.validToken 0 samples.online samples.connectOK)
  = [middleware.Device; middleware.Token; middleware.LanternPro;
     middleware.Connect]
  /\ middleware.entered
    (server.handle samples.validToken 0 samples.online samples.directOK)
  = [middleware.Device; middleware.Token; middleware.LanternPro;
     middleware.Connect; middleware.Forward].
Proof.
  split; [|split; [|split]].
  - destruct (filters_run_in_order samples.validToken 0 samples.online
                samples.connectNoUID) as (_ & H & _).
    apply H. vm_compute. reflexivity.
  - destruct (filters_run_in_order samples.validToken 0 samples.online
                samples.connectBadToken) as (_ & _ & H & _).
    apply (H samples.clientUID); [vm_compute; reflexivity|].
    right. exists "B4dT0k3n". split; [vm_compute; reflexivity | discriminate].
  - destruct (filters_run_in_order samples.validToken 0 samples.online
                samples.connectOK) as (_ & _ & _ & H).
    apply (H samples.clientUID); vm_compute; reflexivity.
  - destruct (filters_run_in_order samples.validToken 0 samples.online
                samples.directOK) as (_ & _ & _ & H).
    apply (H samples.clientUID); vm_compute; reflexivity.
Defined.

Lemma auth_failure_is_not_found_witness :
  middleware.statuses
    (server.handle samples.validToken 0 samples.online samples.connectNoToken) = [404]
  /\ middleware.written
    (server.handle samples.validToken 0 samples.online samples.connectBadToken)
  = middleware.written
      (server.handle samples.validToken 0 samples.online samples.connectNoToken).
Proof.
  assert (server.noToken samples.connectNoToken) as Hno by (vm_compute; reflexivity).
  assert (server.wrongToken samples.validToken samples.connectBadToken) as Hbad.
  { exists "B4dT0k3n". split; [vm_compute; reflexivity | discriminate]. }
  destruct (auth_failure_is_not_found samples.validToken 0 samples.online
              samples.connectNoToken (or_introl Hno)) as (_ & H404 & Hsame).
  split; [exact H404|].
  apply Hsame. right. left. exact Hbad.
Defined.

Lemma connect_dial_failure_witness :
  middleware.statuses
    (server.handle samples.validToken 0 samples.unreachable samples.connectOK) = [200]
  /\ middleware.clientClosed
    (server.handle samples.validToken 0 samples.unreachable samples.connectOK) = false.
Proof.
  destruct (connect_dial_failure samples.validToken 0 samples.unreachable
              samples.connectOK samples.clientUID)
    as (Hs & _ & _ & Hc);
    [reflexivity | vm_compute; reflexivity | vm_compute; reflexivity
     | reflexivity | reflexivity |].
  split; [exact Hs | exact Hc].
Defined.

(** The sibling path of C2: when the dial succeeds, the guard closes the
    client connection. *)
Example connect_tunnel_closes_client :
  middleware.clientClosed
    (server.handle samples.validToken 0 samples.online samples.connectOK) = true.
Proof. vm_compute. reflexivity. Qed.

(** ** Admission control: the live counter *)

Section LiveCounter.

Import http server.

Implicit Types (s : Server) (evs : list (Conn * http.ConnState)).

Lemma numConns_lift s p : numConns (state_of (lift s p)) = numConns s.
Proof. destruct p; reflexivity. Qed.

(** The hook changes the counter by what its [switch] does. *)
Lemma numConns_ConnState s c state :
  numConns (state_of (ConnState s c state)) = numConns (account s c state).
Proof.
  unfold ConnState.
  destruct (maxConns (account s c state) <=? numConns (account s c state)).
  - apply numConns_lift.
  - destruct (IsStopped (listener (account s c state)));
      [apply numConns_lift | reflexivity].
Qed.

Lemma numConns_account s c state :
  numConns (account s c state)
  = match state with
    | StateNew => machine.wrap64 (numConns s + 1)
    | StateClosed => machine.wrap64 (numConns s - 1)
    | _ => numConns s
    end.
Proof. destruct state; reflexivity. Qed.

(** Without overflow the counter is the number of [StateNew] reports
    minus the number of [StateClosed] reports. *)
Lemma numConns_serve evs : forall s,
  Z.abs (numConns s) + Z.of_nat (length evs) <= machine.MaxInt64 ->
  numConns (serve s evs) = numConns s + news evs - closes evs.
Proof.
  unfold news, closes, accepted, closed.
  induction evs as [|[c state] evs IH]; intros s Hb.
  - simpl. lia.
  - change (serve s ((c, state) :: evs))
      with (serve (state_of (ConnState s c state)) evs).
    simpl length in Hb.
    assert (numConns (state_of (ConnState s c state))
            = match state with
              | StateNew => numConns s + 1
              | StateClosed => numConns s - 1
              | _ => numConns s
              end) as Hn.
    { rewrite numConns_ConnState, numConns_account.
      unfold machine.MaxInt64 in Hb.
      destruct state; try reflexivity; apply wrap64_small;
        unfold machine.MinInt64, machine.MaxInt64; lia. }
    rewrite IH; rewrite Hn.
    + destruct state; simpl; rewrite ?length_map; simpl length; lia.
    + destruct state; lia.
Qed.

Lemma member_spec c l : member c l = true <-> c ∈ l.
Proof.
  unfold member. rewrite existsb_exists, list_elem_of_In. split.
  - intros (x & Hin & Heq). apply Nat.eqb_eq in Heq. subst. exact Hin.
  - intros Hin. exists c. split; [exact Hin | apply Nat.eqb_refl].
Qed.

Lemma not_member_spec c l : member c l = false <-> c ∉ l.
Proof.
  rewrite <- member_spec. destruct (member c l); split; congruence.
Qed.

(** What the order of reports gives: no connection is accepted twice or
    closed twice, and only accepted connections are closed. *)
Lemma lifecycle_sound evs : forall seen gone,
  lifecycle seen gone evs = true ->
  NoDup (accepted evs) /\ NoDup (closed evs)
  /\ (forall c, c ∈ accepted evs -> c ∉ seen)
  /\ (forall c, c ∈ closed evs ->
        (c ∉ gone) /\ (c ∈ seen \/ c ∈ accepted evs)).
Proof.
  unfold accepted, closed.
  induction evs as [|[c state] evs IH]; intros seen gone Hl.
  - simpl.
    split; [apply NoDup_nil_2 | split; [apply NoDup_nil_2|]].
    split; intros c Hc; inversion Hc.
  - simpl in Hl.
    destruct state; simpl;
      repeat (apply andb_prop in Hl as [Hl ?]);
      try (destruct (IH _ _ Hl) as (Ha & Hc & Hs & Hg); fail);
      match goal with
      | H : lifecycle _ _ evs = true |- _ =>
          destruct (IH _ _ H) as (Ha & Hc & Hs & Hg)
      end.
    + (* StateNew *)
      apply negb_true_iff, not_member_spec in Hl.
      split; [|split; [exact Hc | split]].
      * constructor; [|exact Ha]. intros Hin. apply (Hs c Hin). left.
      * intros c' Hin. apply elem_of_cons in Hin as [->|Hin]; [exact Hl|].
        intros Hseen. apply (Hs c' Hin). right. exact Hseen.
      * intros c' Hin. destruct (Hg c' Hin) as [Hng [Hse|Hacc]].
        -- split; [exact Hng|].
           apply elem_of_cons in Hse as [->|Hse]; [right; left | left; exact Hse].
        -- split; [exact Hng | right; right; exact Hacc].
    + (* StateActive *)
      repeat split; try assumption; apply Hg; assumption.
    + (* StateIdle *)
      repeat split; try assumption; apply Hg; assumption.
    + (* StateHijacked *)
      repeat split; try assumption; apply Hg; assumption.
    + (* StateClosed *)
      match goal with
      | H1 : member c seen = true, H2 : negb (member c gone) = true |- _ =>
          apply member_spec in H1; apply negb_true_iff in H2;
          apply not_member_spec in H2;
          rename H1 into Hseen; rename H2 into Hgone
      end.
      split; [exact Ha | split; [|split; [exact Hs|]]].
      * constructor; [|exact Hc]. intros Hin.
        destruct (Hg c Hin) as [Hng _]. apply Hng. left.
      * intros c' Hin. apply elem_of_cons in Hin as [->|Hin].
        -- split; [exact Hgone | left; exact Hseen].
        -- destruct (Hg c' Hin) as [Hng Hor]. split; [|exact Hor].
           intros Hin'. apply Hng. right. exact Hin'.
Qed.

Lemma lifecycle_prefix pre : forall seen gone suf,
  lifecycle seen gone (pre ++ suf) = true -> lifecycle seen gone pre = true.
Proof.
  induction pre as [|[c state] pre IH]; intros seen gone suf Hl; [reflexivity|].
  simpl in *. destruct state;
    repeat (apply andb_prop in Hl as [Hl ?]);
    repeat (apply andb_true_intro; split); try assumption;
    eapply IH; eassumption.
Qed.

(** Counting the open connections. *)
Lemma open_length evs :
  NoDup (accepted evs) -> NoDup (closed evs) ->
  (forall c, c ∈ closed evs -> c ∈ accepted evs) ->
  (length (open evs) + length (closed evs) = length (accepted evs))%nat.
Proof.
  intros Ha Hc Hsub. unfold open.
  set (l := accepted evs) in *. set (k := closed evs) in *.
  set (o := List.filter (fun c => negb (member c k)) (remove_dups l)).
  assert (NoDup o) as Ho.
  { apply NoDup_ListNoDup, List.NoDup_filter, NoDup_ListNoDup,
      NoDup_remove_dups. }
  assert (list_to_set o = (list_to_set l ∖ list_to_set k : gset Conn)) as Hset.
  { apply set_eq. intros c.
    rewrite elem_of_difference, !elem_of_list_to_set.
    unfold o. rewrite list_elem_of_In, filter_In, <- list_elem_of_In.
    rewrite elem_of_remove_dups, negb_true_iff, not_member_spec.
    reflexivity. }
  rewrite <- (size_list_to_set (C := gset Conn) o Ho).
  rewrite <- (size_list_to_set (C := gset Conn) k Hc).
  rewrite <- (size_list_to_set (C := gset Conn) l Ha).
  assert ((list_to_set k : gset Conn) ⊆ list_to_set l) as Hincl.
  { intros c. rewrite !elem_of_list_to_set. apply Hsub. }
  rewrite Hset, size_difference by exact Hincl.
  apply subseteq_size in Hincl. lia.
Qed.

(** At every point of a sequence of connection-state reports that
    follows the life of each connection (a connection is reported new
    once, before anything else, and closed at most once, with nothing
    after), the live counter equals the number of connections that were
    reported new and have not been reported closed; so it is never
    negative there.  (The reports are fewer than 2^63.) *)
Lemma numConns_counts_open token maxConns evs pre suf :
  lifecycle [] [] evs = true ->
  evs = (pre ++ suf)%list ->
  Z.of_nat (length evs) <= machine.MaxInt64 ->
  numConns (serve (NewServer token maxConns) pre) = Z.of_nat (length (open pre))
  /\ 0 <= numConns (serve (NewServer token maxConns) pre).
Proof.
  intros Hl -> Hlen.
  apply lifecycle_prefix in Hl.
  destruct (lifecycle_sound _ _ _ Hl) as (Ha & Hc & _ & Hg).
  assert (forall c, c ∈ closed pre -> c ∈ accepted pre) as Hsub.
  { intros c Hin. destruct (Hg c Hin) as [_ [H|H]]; [inversion H | exact H]. }
  pose proof (open_length pre Ha Hc Hsub) as Hopen.
  rewrite length_app in Hlen.
  rewrite numConns_serve by (simpl; lia).
  unfold news, closes. simpl. lia.
Qed.

(** The order net/http keeps is a life of each connection. *)
Lemma httpOrder_lifecycle evs : forall seen over gone,
  httpOrder seen over evs = true ->
  (forall c, c ∈ gone -> c ∈ over) ->
  lifecycle seen gone evs = true.
Proof.
  induction evs as [|[c state] evs IH]; intros seen over gone Ho Hsub;
    [reflexivity|].
  assert (negb (member c over) = true -> negb (member c gone) = true) as Hng.
  { rewrite !negb_true_iff, !not_member_spec.
    intros Hn Hin. apply Hn, Hsub, Hin. }
  assert (forall c', c' ∈ gone -> c' ∈ c :: over) as Hsub1
      by (intros c' Hin; right; apply Hsub, Hin).
  assert (forall c', c' ∈ c :: gone -> c' ∈ c :: over) as Hsub2.
  { intros c' Hin. apply elem_of_cons in Hin as [->|Hin];
      [left | right; apply Hsub, Hin]. }
  simpl in *. destruct state.
  - apply andb_prop in Ho as [H1 H2]. rewrite H1. simpl.
    apply (IH _ _ _ H2 Hsub).
  - apply andb_prop in Ho as [H1 H3]. apply andb_prop in H1 as [H1 H2].
    rewrite H1, (Hng H2). simpl. apply (IH _ _ _ H3 Hsub).
  - apply andb_prop in Ho as [H1 H3]. apply andb_prop in H1 as [H1 H2].
    rewrite H1, (Hng H2). simpl. apply (IH _ _ _ H3 Hsub).
  - apply andb_prop in Ho as [H1 H3]. apply andb_prop in H1 as [H1 H2].
    rewrite H1, (Hng H2). simpl. apply (IH _ _ _ H3 Hsub1).
  - apply andb_prop in Ho as [H1 H3]. apply andb_prop in H1 as [H1 H2].
    rewrite H1, (Hng H2). simpl. apply (IH _ _ _ H3 Hsub2).
Qed.

Lemma closed_fst evs c : c ∈ closed evs -> c ∈ map fst evs.
Proof.
  unfold closed. rewrite !list_elem_of_In, !in_map_iff.
  intros ([c' st] & Heq & Hin). apply filter_In in Hin as [Hin _].
  exists (c', st). split; assumption.
Qed.

(** A hijacked connection is never reported closed: it was reported new
    and stays among the connections that were. *)
Lemma httpOrder_hijacked evs : forall seen over,
  httpOrder seen over evs = true ->
  (forall c, c ∈ over -> c ∈ seen) ->
  forall c,
    (c ∈ over -> c ∉ map fst evs)
    /\ (In (c, StateHijacked) evs ->
        (c ∉ closed evs) /\ (c ∈ seen \/ c ∈ accepted evs)).
Proof.
  unfold accepted.
  induction evs as [|[c0 state] evs IH]; intros seen over Ho Hsub c.
  { split; [intros _ Hin; inversion Hin | intros []]. }
  simpl in Ho.
  destruct state;
    repeat (apply andb_prop in Ho as [Ho ?]);
    repeat match goal with
           | H : member _ _ = true |- _ => apply member_spec in H
           | H : negb (member _ _) = true |- _ =>
               apply negb_true_iff, not_member_spec in H
           end.
  - (* StateNew *)
    match goal with
    | H : httpOrder _ _ evs = true |- _ =>
        destruct (IH (c0 :: seen) over H
                     (fun c' Hc => proj2 (elem_of_cons _ _ _) (or_intror (Hsub c' Hc)))
                     c) as [IH1 IH2]
    end.
    split.
    + intros Hin. simpl. intros Hm. apply elem_of_cons in Hm as [->|Hm].
      * apply Ho, Hsub, Hin.
      * apply (IH1 Hin Hm).
    + intros [Heq|Hin]; [discriminate Heq|].
      destruct (IH2 Hin) as [Hnc Hor]. split; [exact Hnc|].
      simpl. destruct Hor as [Hs|Ha].
      * apply elem_of_cons in Hs as [->|Hs];
          [right; left | left; exact Hs].
      * right. right. exact Ha.
  - (* StateActive *)
    match goal with
    | H : httpOrder _ _ evs = true |- _ =>
        destruct (IH seen over H Hsub c) as [IH1 IH2]
    end.
    split.
    + intros Hin. simpl. intros Hm. apply elem_of_cons in Hm as [->|Hm];
        [contradiction | apply (IH1 Hin Hm)].
    + intros [Heq|Hin]; [discriminate Heq|]. exact (IH2 Hin).
  - (* StateIdle *)
    match goal with
    | H : httpOrder _ _ evs = true |- _ =>
        destruct (IH seen over H Hsub c) as [IH1 IH2]
    end.
    split.
    + intros Hin. simpl. intros Hm. apply elem_of_cons in Hm as [->|Hm];
        [contradiction | apply (IH1 Hin Hm)].
    + intros [Heq|Hin]; [discriminate Heq|]. exact (IH2 Hin).
  - (* StateHijacked *)
    match goal with
    | H : httpOrder _ _ evs = true, Hs : c0 ∈ seen |- _ =>
        assert (forall c', c' ∈ c0 :: over -> c' ∈ seen) as Hsub'
            by (intros c' Hc; apply elem_of_cons in Hc as [->|Hc];
                [exact Hs | apply Hsub, Hc]);
        pose proof (fun c' => IH seen (c0 :: over) H Hsub' c') as IHc
    end.
    destruct (IHc c) as [IH1 IH2]. split.
    + intros Hin. simpl. intros Hm. apply elem_of_cons in Hm as [->|Hm];
        [contradiction|].
      apply IH1; [right; exact Hin | exact Hm].
    + intros [Heq|Hin].
      * injection Heq as ->. split; [|left; assumption].
        change (closed (_ :: evs)) with (closed evs).
        intros Hcl. apply closed_fst in Hcl.
        apply (proj1 (IHc c)); [left | exact Hcl].
      * exact (IH2 Hin).
  - (* StateClosed *)
    match goal with
    | H : httpOrder _ _ evs = true, Hs : c0 ∈ seen |- _ =>
        assert (forall c', c' ∈ c0 :: over -> c' ∈ seen) as Hsub'
            by (intros c' Hc; apply elem_of_cons in Hc as [->|Hc];
                [exact Hs | apply Hsub, Hc]);
        pose proof (fun c' => IH seen (c0 :: over) H Hsub' c') as IHc
    end.
    destruct (IHc c) as [IH1 IH2]. split.
    + intros Hin. simpl. intros Hm. apply elem_of_cons in Hm as [->|Hm];
        [contradiction|].
      apply IH1; [right; exact Hin | exact Hm].
    + intros [Heq|Hin]; [discriminate Heq|].
      destruct (IH2 Hin) as [Hnc Hor]. split; [|exact Hor].
      unfold closed. simpl. fold (closed evs).
      intros Hm. apply elem_of_cons in Hm as [->|Hm]; [|exact (Hnc Hm)].
      apply (proj1 (IHc c0)); [left|].
      apply list_elem_of_In, in_map_iff. exists (c0, StateHijacked).
      split; [reflexivity | exact Hin].
Qed.

End LiveCounter.

Lemma numConns_counts_open_witness :
  server.numConns
    (server.serve (server.NewServer samples.validToken 2) samples.traffic) = 1.
Proof.
  destruct (numConns_counts_open samples.validToken 2 samples.traffic
              samples.traffic [] eq_refl) as [H _].
  - symmetry. apply app_nil_r.
  - vm_compute. discriminate.
  - rewrite H. reflexivity.
Defined.

(** ** Admission control: pausing and resuming the listener *)

Section Throttle.

Import http server.

Lemma shape_call sl c : shape sl -> shape (call sl c).
Proof.
  intros Hs. destruct sl as [sd st rw rs ss].
  destruct Hs as [H1 H2 H3 H4|H1 H2 H3 H4|H1 H2 H3 H4 H5];
    simpl in *; subst; destruct c; simpl;
    try (destruct rs; simpl);
    first [ apply Running; reflexivity
          | apply Pending; reflexivity
          | apply Parked; reflexivity ].
Qed.

Lemma shape_after calls : shape (after calls).
Proof.
  unfold after.
  assert (forall sl, shape sl -> shape (fold_left call calls sl)) as H.
  { induction calls as [|c calls IH]; intros sl Hs; [exact Hs|].
    simpl. apply IH, shape_call, Hs. }
  apply H. apply Running; reflexivity.
Qed.

Lemma account_listener s c state : listener (account s c state) = listener s.
Proof. destruct state; reflexivity. Qed.

Lemma account_maxConns s c state : maxConns (account s c state) = maxConns s.
Proof. destruct state; reflexivity. Qed.

Lemma setListener_same s : setListener (listener s) s = s.
Proof. destruct s; reflexivity. Qed.

Lemma serve_cons s c state evs :
  serve s ((c, state) :: evs) = serve (state_of (ConnState s c state)) evs.
Proof. reflexivity. Qed.

Lemma serve_app s evs1 evs2 :
  serve s (evs1 ++ evs2) = serve (serve s evs1) evs2.
Proof. unfold serve. apply fold_left_app. Qed.

Lemma maxConns_ConnState s c state :
  maxConns (state_of (ConnState s c state)) = maxConns s.
Proof.
  unfold ConnState. rewrite account_maxConns.
  destruct (_ <=? _); [|destruct (IsStopped _)];
    try (destruct (Stop _)); try (destruct (Restart _));
    simpl; apply account_maxConns.
Qed.

(** The hook keeps the listener in one of its shapes. *)
Lemma shape_ConnState s c state :
  shape (listener s) -> shape (listener (state_of (ConnState s c state))).
Proof.
  intros Hs. unfold ConnState. rewrite account_listener.
  destruct (_ <=? _); [|destruct (IsStopped (listener s))].
  - destruct (Stop (listener s)) eqn:E; simpl;
      apply (shape_call _ CallStop) in Hs; unfold call in Hs;
      rewrite E in Hs; exact Hs.
  - destruct (Restart (listener s)) eqn:E; simpl;
      apply (shape_call _ CallRestart) in Hs; unfold call in Hs;
      rewrite E in Hs; exact Hs.
  - simpl. rewrite account_listener. exact Hs.
Qed.

Lemma shape_serve evs : forall s,
  shape (listener s) -> shape (listener (serve s evs)).
Proof.
  induction evs as [|[c state] evs IH]; intros s Hs; [exact Hs|].
  rewrite serve_cons. apply IH, shape_ConnState, Hs.
Qed.

(** With the counter at or over the cap the hook leaves the listener
    stopped. *)
Lemma ConnState_at_cap s c state :
  shape (listener s) ->
  maxConns s <= numConns (account s c state) ->
  IsStopped (listener (state_of (ConnState s c state))) = true.
Proof.
  intros Hs Hge. unfold ConnState.
  rewrite account_maxConns, account_listener.
  apply Z.leb_le in Hge. rewrite Hge.
  destruct Hs as [H1 H2 H3 H4|H1 H2 H3 H4|H1 H2 H3 H4 H5];
    unfold Stop, IsStopped; rewrite H1, ?H2; simpl; rewrite ?H1; reflexivity.
Qed.

(** What the calls do to a listener of each shape. *)
Lemma Stop_running sl :
  stopped sl = 0 -> stop sl = [] ->
  Stop sl = Done {| stopped := 1; stop := [true];
                    restartWaiting := restartWaiting sl;
                    restartSending := restartSending sl;
                    stopSending := stopSending sl |}.
Proof. intros H1 H2. unfold Stop, IsStopped. rewrite H1, H2. reflexivity. Qed.

Lemma Accept_pending sl :
  stop sl = [true] -> stopSending sl = 0%nat ->
  Accept sl
  = match restartSending sl with
    | S n => Done {| stopped := 0; stop := []; restartWaiting := false;
                     restartSending := n; stopSending := 0 |}
    | O => Blocked {| stopped := stopped sl; stop := [];
                      restartWaiting := true;
                      restartSending := 0; stopSending := 0 |}
    end.
Proof.
  intros H2 H4. unfold Accept, takeStop, takeRestart. rewrite H2, H4. simpl.
  destruct (restartSending sl); reflexivity.
Qed.


End Throttle.


(** ** Admission control: hijacked connections *)

Section Hijacked.

Import http server.

(** C4, as the code has it.  On reports that keep the order of
    net/http the live counter is the number of connections that were
    reported new and have not been reported closed.  A connection that
    a handler has hijacked (every CONNECT tunnel) is among them for
    good: nothing is reported for it any more, so whatever becomes of
    it, and however many reports follow, the counter stays at one or
    more; with a cap of one the hook leaves the listener stopped after
    that report and after every report that follows. *)
Theorem hijacked_stays_counted token maxConns evs c :
  httpOrder [] [] evs = true ->
  Z.of_nat (length evs) <= machine.MaxInt64 ->
  In (c, StateHijacked) evs ->
  numConns (serve (NewServer token maxConns) evs)
  = Z.of_nat (length (open evs))
  /\ c ∈ open evs
  /\ 1 <= numConns (serve (NewServer token maxConns) evs)
  /\ (maxConns = 1 ->
      IsStopped (listener (serve (NewServer token maxConns) evs)) = true).
Proof.
  intros Ho Hlen Hin.
  assert (lifecycle [] [] evs = true) as Hl
      by (apply (httpOrder_lifecycle evs [] [] [] Ho); intros c' Hc; exact Hc).
  destruct (numConns_counts_open token maxConns evs evs [] Hl
              (eq_sym (app_nil_r _)) Hlen) as [Hnum _].
  assert (c ∈ open evs) as Hopen.
  { destruct (httpOrder_hijacked evs [] [] Ho (fun c' Hc => Hc) c)
      as [_ H].
    destruct (H Hin) as [Hnc [Hs|Ha]]; [inversion Hs|].
    unfold open. apply list_elem_of_In, filter_In. split.
    - apply list_elem_of_In, elem_of_remove_dups, Ha.
    - apply negb_true_iff, not_member_spec, Hnc. }
  assert (1 <= numConns (serve (NewServer token maxConns) evs)) as Hone.
  { rewrite Hnum. destruct (open evs); [inversion Hopen | simpl; lia]. }
  split; [exact Hnum|]. split; [exact Hopen|]. split; [exact Hone|].
  intros ->.
  destruct evs as [|e evs] using rev_ind; [destruct Hin|]. clear IHevs.
  destruct e as [c' state]. rewrite serve_app in *.
  change (serve ?s [(c', state)]) with (state_of (ConnState s c' state)) in *.
  rewrite numConns_ConnState in Hone.
  apply ConnState_at_cap.
  - apply shape_serve. apply Running; reflexivity.
  - assert (maxConns (serve (NewServer token 1) evs) = 1) as ->; [|exact Hone].
    clear. generalize (NewServer token 1) (eq_refl : server.maxConns (NewServer token 1) = 1).
    induction evs as [|[c st] evs IH]; intros s Hs; [exact Hs|].
    rewrite serve_cons. apply IH. rewrite maxConns_ConnState. exact Hs.
Qed.

End Hijacked.

(** The CONNECT request of main_test.go on a server with room for one
    connection: the tunnel has come and gone, both connections are
    closed, and the connection is still counted; the listener stays
    stopped. *)
Lemma hijacked_stays_counted_witness :
  let x := server.handle samples.validToken 1 samples.online samples.connectOK in
  (exists t, middleware.tunnel x = Some t /\ relay.tornDown t = true)
  /\ server.numConns
       (server.serve (server.NewServer samples.validToken 1)
                     (server.lifeOf 1%nat x)) = 1
  /\ server.IsStopped
       (server.listener
          (server.serve (server.NewServer samples.validToken 1)
                        (server.lifeOf 1%nat x))) = true.
Proof.
  intros x.
  split; [eexists; split; vm_compute; reflexivity|].
  destruct (hijacked_stays_counted samples.validToken 1
              (server.lifeOf 1%nat x) 1%nat) as (Hnum & _ & _ & Hstop).
  - vm_compute. reflexivity.
  - vm_compute. discriminate.
  - vm_compute. right. right. left. reflexivity.
  - split; [|apply Hstop; reflexivity].
    rewrite Hnum. vm_compute. reflexivity.
Defined.

(** ** More on the port filter *)

Section Strings.

Import strings.

Lemma IndexByte_ge s c : -1 <= IndexByte s c.
Proof.
  induction s as [|a s IH]; simpl; [lia|].
  destruct (Ascii.eqb a c); [lia|].
  destruct (Z.ltb_spec (IndexByte s c) 0); lia.
Qed.

Lemma IndexByte_app_absent s r c :
  IndexByte s c < 0 -> IndexByte r c < 0 -> IndexByte (s ++ r) c < 0.
Proof.
  induction s as [|a s IH]; simpl; [auto|].
  destruct (Ascii.eqb a c); [lia|].
  destruct (Z.ltb_spec (IndexByte s c) 0) as [Hlt|Hge]; [|lia].
  intros _ Hr. specialize (IH Hlt Hr).
  destruct (Z.ltb_spec (IndexByte (s ++ r) c) 0); lia.
Qed.

Lemma IndexByte_cons_absent a s c :
  Ascii.eqb a c = false -> IndexByte s c < 0 -> IndexByte (String a s) c < 0.
Proof.
  intros Ha Hs. simpl. rewrite Ha.
  destruct (Z.ltb_spec (IndexByte s c) 0); lia.
Qed.

(** The last [c] of [s ++ c :: r] is the one in the middle when [r] has
    none. *)
Lemma LastIndexByte_middle s r c :
  IndexByte r c < 0 -> LastIndexByte (s ++ String c r) c = len s.
Proof.
  intros Hr. unfold len.
  induction s as [|a s IH].
  - simpl. rewrite (LastIndexByte_none _ _ Hr), Ascii.eqb_refl. reflexivity.
  - simpl. rewrite IH.
    destruct (Z.leb_spec 0 (Z.of_nat (String.length s))); lia.
Qed.

Lemma substring_prefix s r :
  String.substring 0 (String.length s) (s ++ r) = s.
Proof.
  induction s as [|a s IH]; simpl.
  - destruct r; reflexivity.
  - rewrite IH. reflexivity.
Qed.

Lemma substring_all s : String.substring 0 (String.length s) s = s.
Proof.
  induction s as [|a s IH]; simpl; [reflexivity | rewrite IH; reflexivity].
Qed.

Lemma substring_suffix s r :
  String.substring (String.length s) (String.length r) (s ++ r) = r.
Proof.
  induction s as [|a s IH]; simpl; [apply substring_all | exact IH].
Qed.

Lemma length_append s r :
  String.length (s ++ r) = (String.length s + String.length r)%nat.
Proof. induction s as [|a s IH]; simpl; [reflexivity | rewrite IH; reflexivity]. Qed.

End Strings.

Section WireFormat.

Import strings wire.


Lemma append_String a s r : (String a s ++ r = String a (s ++ r))%string.
Proof. reflexivity. Qed.

Lemma append_cons_assoc s a r :
  (s ++ String a r = (s ++ String a EmptyString) ++ r)%string.
Proof.
  induction s as [|b s IH]; [reflexivity|].
  rewrite !append_String, IH. reflexivity.
Qed.

Lemma hostport_cons host port :
  hostport host port = (host ++ String ":" port)%string.
Proof. reflexivity. Qed.

Lemma at_head_plain host port :
  plain host -> Ascii.eqb (at_ (hostport host port) 0) "[" = false.
Proof.
  intros (_ & Hb & _). rewrite hostport_cons. unfold at_.
  destruct host as [|a host]; [reflexivity|]. rewrite append_String. simpl.
  simpl in Hb. destruct (Ascii.eqb a "["); [lia | reflexivity].
Qed.

(** [SplitHostPort] undoes the joining of a plain host and a plain
    port. *)
Lemma SplitHostPort_hostport host port :
  plain host -> plain port ->
  net.SplitHostPort (hostport host port) = Ok (host, port).
Proof.
  intros Hh Hp.
  pose proof (at_head_plain host port Hh) as Hhead.
  destruct Hh as (Hhc & Hhl & Hhr). destruct Hp as (Hpc & Hpl & Hpr).
  unfold net.SplitHostPort. rewrite Hhead.
  rewrite hostport_cons.
  rewrite (LastIndexByte_middle host port ":" Hpc).
  assert (0 <= len host) as Hlen by (unfold len; lia).
  destruct (Z.ltb_spec (len host) 0) as [|_]; [lia|].
  assert (slice (host ++ String ":" port) 0 (len host) = host) as ->.
  { unfold slice, len. rewrite Z.sub_0_r, Nat2Z.id. apply substring_prefix. }
  destruct (Z.leb_spec 0 (IndexByte host ":")) as [|_]; [lia|].
  assert (slice_from (host ++ String ":" port) 0 = host ++ String ":" port)%string
    as ->.
  { unfold slice_from, slice, len. rewrite Z.sub_0_r, Nat2Z.id.
    apply substring_all. }
  assert (forall c, Ascii.eqb ":" c = false ->
            IndexByte host c < 0 -> IndexByte port c < 0 ->
            IndexByte (host ++ String ":" port) c < 0) as Habs.
  { intros c Hc H1 H2. apply IndexByte_app_absent; [exact H1|].
    apply IndexByte_cons_absent; assumption. }
  destruct (Z.leb_spec 0 (IndexByte (host ++ String ":" port) "[")) as [Hge|_].
  { specialize (Habs "["%char eq_refl Hhl Hpl). lia. }
  destruct (Z.leb_spec 0 (IndexByte (host ++ String ":" port) "]")) as [Hge|_].
  { specialize (Habs "]"%char eq_refl Hhr Hpr). lia. }
  f_equal. f_equal.
  unfold slice_from, slice, len.
  rewrite append_cons_assoc, !length_append. simpl String.length.
  replace (Z.to_nat (Z.of_nat (String.length host) + 1))
    with (String.length (host ++ String ":" EmptyString))
    by (rewrite length_append; simpl; lia).
  replace (Z.to_nat _) with (String.length port) by lia.
  apply substring_suffix.
Qed.

Lemma digits_string_of_uint d : forall acc,
  strconv.digits (NilEmpty.string_of_uint d) acc = Some (value d acc).
Proof. induction d; intros acc; simpl; auto. Qed.

Lemma value_of_uint_acc d : forall acc,
  value d (Z.pos acc) = Z.pos (Pos.of_uint_acc d acc).
Proof.
  induction d; intros acc; simpl; [reflexivity|..];
    rewrite <- IHd; f_equal; lia.
Qed.

Lemma value_of_uint d : value d 0 = Z.of_N (Pos.of_uint d).
Proof.
  induction d; simpl; try exact IHd; try reflexivity;
    rewrite <- value_of_uint_acc; reflexivity.
Qed.

Lemma plain_string_of_uint d : plain (NilEmpty.string_of_uint d).
Proof.
  unfold plain.
  induction d; simpl; [lia|..]; destruct IHd as (H1 & H2 & H3);
    repeat split;
    match goal with
    | |- (if ?b then _ else _) < 0 =>
        destruct (Z.ltb_spec (IndexByte (NilEmpty.string_of_uint d) ":") 0);
        destruct (Z.ltb_spec (IndexByte (NilEmpty.string_of_uint d) "[") 0);
        destruct (Z.ltb_spec (IndexByte (NilEmpty.string_of_uint d) "]") 0);
        lia
    end.
Qed.

Lemma FormatUint_NilEmpty n :
  strconv.FormatUint n = NilEmpty.string_of_uint (N.to_uint (Z.to_N n)).
Proof.
  unfold strconv.FormatUint.
  destruct (Z.to_N n) as [|p]; [reflexivity|]. simpl.
  pose proof (DecimalPos.Unsigned.to_uint_nonnil p) as Hnn.
  destruct (Pos.to_uint p); [contradiction|..]; reflexivity.
Qed.

Lemma Atoi_unsigned c rest :
  Ascii.eqb c "-" = false -> Ascii.eqb c "+" = false ->
  strconv.Atoi (String c rest)
  = match strconv.digits (String c rest) 0 with
    | None => Err "invalid syntax"
    | Some n =>
        if machine.in_int64 n then Ok n else Err "value out of range"
    end.
Proof. intros H1 H2. unfold strconv.Atoi. rewrite H1, H2. reflexivity. Qed.

(** [Atoi] reads back what [FormatUint] prints. *)
Lemma Atoi_FormatUint n :
  0 <= n <= machine.MaxInt64 -> strconv.Atoi (strconv.FormatUint n) = Ok n.
Proof.
  intros Hn. rewrite FormatUint_NilEmpty.
  set (d := N.to_uint (Z.to_N n)).
  assert (value d 0 = n) as Hv.
  { rewrite value_of_uint. unfold d.
    change (Pos.of_uint (N.to_uint (Z.to_N n)))
      with (N.of_uint (N.to_uint (Z.to_N n))).
    rewrite DecimalN.Unsigned.of_to. lia. }
  assert (d <> Decimal.Nil) as Hnn.
  { unfold d. destruct (Z.to_N n); simpl; [discriminate|].
    apply DecimalPos.Unsigned.to_uint_nonnil. }
  pose proof (digits_string_of_uint d 0) as Hd. rewrite Hv in Hd.
  assert (machine.in_int64 n = true) as Hin.
  { unfold machine.in_int64, machine.MinInt64, machine.MaxInt64 in *.
    apply andb_true_intro. split; apply Z.leb_le; lia. }
  destruct d; try contradiction; simpl NilEmpty.string_of_uint in *;
    rewrite Atoi_unsigned by reflexivity; rewrite Hd, Hin; reflexivity.
Qed.

End WireFormat.

Section PortFilterMore.

Import http proxyfilters wire.

Variable Context : Type.
Implicit Types (ctx : Context) (req : Request) (next : Next Context).

(** X1.  A CONNECT request whose Host is [host:port], with a host free
    of colons and brackets and the port written in decimal, is handed to
    the next filter when the port is in the (non-empty) allow-list and
    answered 403 otherwise. *)
Theorem RestrictConnectPorts_on_the_wire allowedPorts ctx req next host port :
  Method req = MethodConnect -> allowedPorts <> [] ->
  plain host -> 0 <= port <= machine.MaxInt64 ->
  Host req = hostport host (strconv.FormatUint port) ->
  (In port allowedPorts ->
     RestrictConnectPorts allowedPorts ctx req next = next ctx req)
  /\ (~ In port allowedPorts ->
     RestrictConnectPorts allowedPorts ctx req next
     = fail ctx req StatusForbidden "Port not allowed").
Proof.
  intros Hm Hne Hplain Hport Hhost.
  unfold RestrictConnectPorts.
  rewrite (restricted _ _ Hm Hne), Hhost.
  rewrite SplitHostPort_hostport;
    [|exact Hplain | rewrite FormatUint_NilEmpty; apply plain_string_of_uint].
  rewrite (Atoi_FormatUint _ Hport).
  split; intros Hin.
  - apply port_allowed_In in Hin. rewrite Hin. reflexivity.
  - destruct (port_allowed port allowedPorts) eqn:E; [|reflexivity].
    apply port_allowed_In in E. contradiction.
Qed.

(** X2.  With a next filter that never reports an error, the filter's
    own result is free of error exactly when the request was handed on:
    when it is not a CONNECT, when the allow-list is empty, or when its
    Host splits into a host and a port that parses to a listed
    number.  Every other request is answered by the filter itself. *)
Theorem RestrictConnectPorts_passes_exactly allowedPorts ctx req next :
  (forall c r, snd (next c r) = None) ->
  snd (RestrictConnectPorts allowedPorts ctx req next) = None
  <-> (Method req <> MethodConnect \/ allowedPorts = []
       \/ exists host portString port,
            net.SplitHostPort (Host req) = Ok (host, portString)
            /\ strconv.Atoi portString = Ok port
            /\ In port allowedPorts).
Proof.
  intros Hnext. unfold RestrictConnectPorts.
  destruct (String.eqb_spec (Method req) MethodConnect) as [Hm|Hm]; simpl.
  2:{ split; [intros _; left; exact Hm | intros _; apply Hnext]. }
  destruct (Z.eqb_spec (Z.of_nat (length allowedPorts)) 0) as [El|El].
  { split; [|intros _; apply Hnext].
    intros _. right. left. destruct allowedPorts; [reflexivity | discriminate]. }
  assert (allowedPorts <> []) as Hne by (intros ->; apply El; reflexivity).
  destruct (net.SplitHostPort (Host req)) as [[host portString]|e] eqn:Es.
  - destruct (strconv.Atoi portString) as [port|e] eqn:Eat.
    + destruct (port_allowed port allowedPorts) eqn:Ep.
      * split; [|intros _; apply Hnext].
        intros _. right. right. exists host, portString, port.
        repeat split; try assumption. apply port_allowed_In, Ep.
      * simpl. split; [discriminate|].
        intros [H|[H|(h & ps' & n & Hs & Ha & Hin)]];
          [contradiction | contradiction |].
        injection Hs as <- <-. rewrite Eat in Ha. injection Ha as <-.
        apply port_allowed_In in Hin. congruence.
    + simpl. split; [discriminate|].
      intros [H|[H|(h & ps' & n & Hs & Ha & Hin)]];
        [contradiction | contradiction |].
      injection Hs as <- <-. rewrite Eat in Ha. discriminate.
  - simpl. split; [discriminate|].
    intros [H|[H|(h & ps' & n & Hs & Ha & Hin)]];
      [contradiction | contradiction | discriminate].
Qed.

(** X3.  Port restrictions compose: applying the same restriction twice
    is the same as applying it once, and two restrictions can be chained
    in either order with the same result. *)
Theorem RestrictConnectPorts_compose allowedA allowedB ctx req next :
  RestrictConnectPorts allowedA ctx req
    (fun c r => RestrictConnectPorts allowedA c r next)
  = RestrictConnectPorts allowedA ctx req next
  /\ RestrictConnectPorts allowedA ctx req
      (fun c r => RestrictConnectPorts allowedB c r next)
    = RestrictConnectPorts allowedB ctx req
        (fun c r => RestrictConnectPorts allowedA c r next).
Proof.
  unfold RestrictConnectPorts.
  destruct (negb (String.eqb (Method req) MethodConnect)); simpl;
    [split; reflexivity|].
  destruct (Z.of_nat (length allowedA) =? 0), (Z.of_nat (length allowedB) =? 0);
    simpl; try (split; reflexivity);
    destruct (net.SplitHostPort (Host req)) as [[host portString]|e];
    try (split; reflexivity);
    destruct (strconv.Atoi portString) as [port|e]; try (split; reflexivity);
    destruct (port_allowed port allowedA), (port_allowed port allowedB);
    split; reflexivity.
Qed.

End PortFilterMore.

Lemma RestrictConnectPorts_on_the_wire_witness :
  proxyfilters.RestrictConnectPorts [443; 8443] tt
    (samples.request "CONNECT" "example.com:8443" []) samples.accept
  = samples.accept tt (samples.request "CONNECT" "example.com:8443" []).
Proof.
  destruct (RestrictConnectPorts_on_the_wire unit [443; 8443] tt
              (samples.request "CONNECT" "example.com:8443" [])
              samples.accept "example.com" 8443) as [H _].
  - reflexivity.
  - discriminate.
  - repeat split; vm_compute; reflexivity.
  - split; [discriminate | vm_compute; discriminate].
  - reflexivity.
  - apply H. simpl. right. left. reflexivity.
Defined.

Lemma RestrictConnectPorts_passes_exactly_witness :
  snd (proxyfilters.RestrictConnectPorts [443] tt
         (samples.request "CONNECT" "example.com:443" []) samples.accept)
  = None.
Proof.
  apply (RestrictConnectPorts_passes_exactly unit [443] tt
           (samples.request "CONNECT" "example.com:443" []) samples.accept).
  - reflexivity.
  - right. right. exists "example.com", "443", 443.
    split; [vm_compute; reflexivity|].
    split; [vm_compute; reflexivity | left; reflexivity].
Defined.


(** ** More on the traffic reporter *)

Section ReporterMore.

Import measured redis utils.

(** X4.  Whatever the trackers and the store, the writes [ReportTraffic]
    makes are the first so-many writes of the full report, in order: it
    never writes anything else, never skips a write and goes on, and
    leaves the earlier history alone. *)
Theorem ReportTraffic_sends_prefix (rc : Client) (tt : list TrafficTracker) :
  exists k, (k <= 2 * length tt)%nat
    /\ snd (ReportTraffic rc tt) = sending rc (firstn k (writes tt)).
Proof.
  revert rc. induction tt as [|t tt IH]; intros rc.
  - exists 0%nat. split; [lia|]. simpl. rewrite sending_nil. reflexivity.
  - destruct (String.eqb_spec (ID t) EmptyString) as [He|Hne].
    + exists 0%nat. split; [lia|]. simpl.
      rewrite He. simpl. rewrite sending_nil. reflexivity.
    + rewrite (ReportTraffic_step rc t tt Hne).
      destruct (answer rc (sent rc) (hmset t)).
      { exists 1%nat. split; [simpl; lia | reflexivity]. }
      destruct (answer rc (sent rc ++ [hmset t]) (zadd t)).
      { exists 2%nat. split; [simpl; lia | reflexivity]. }
      destruct (IH (sending rc [hmset t; zadd t])) as (k & Hk & Hs).
      exists (2 + k)%nat. split; [simpl; lia|].
      rewrite Hs, sending_app. reflexivity.
Qed.

(** X5.  [ReportTraffic] returns nil exactly when every tracker has an
    identifier and every write succeeds; it has then made all the writes
    of the report. *)
Theorem ReportTraffic_nil_iff (rc : Client) (tt : list TrafficTracker) :
  (fst (ReportTraffic rc tt) = Return None
   <-> Forall identified tt
       /\ first_failure (answer rc) (sent rc) (writes tt) = None)
  /\ (fst (ReportTraffic rc tt) = Return None ->
      snd (ReportTraffic rc tt) = sending rc (writes tt)).
Proof.
  assert (Forall identified tt
          /\ first_failure (answer rc) (sent rc) (writes tt) = None ->
          ReportTraffic rc tt = (Return None, sending rc (writes tt))) as Hback.
  { intros [Hid Hok]. rewrite <- (app_nil_r tt) at 1.
    rewrite (ReportTraffic_app _ _ _ Hid Hok). reflexivity. }
  assert (fst (ReportTraffic rc tt) = Return None ->
          Forall identified tt
          /\ first_failure (answer rc) (sent rc) (writes tt) = None) as Hforth.
  { clear Hback. revert rc. induction tt as [|t tt IH]; intros rc Hnil.
    - split; [constructor | reflexivity].
    - destruct (String.eqb_spec (ID t) EmptyString) as [He|Hne].
      { simpl in Hnil. rewrite He in Hnil. discriminate. }
      rewrite (ReportTraffic_step rc t tt Hne) in Hnil. simpl.
      destruct (answer rc (sent rc) (hmset t)); [discriminate|].
      destruct (answer rc (sent rc ++ [hmset t]) (zadd t)); [discriminate|].
      destruct (IH _ Hnil) as [Hid Hok]. simpl in Hok.
      rewrite <- app_assoc. simpl. rewrite Hok.
      split; [constructor; assumption | reflexivity]. }
  split; [split|].
  - exact Hforth.
  - intros H. rewrite (Hback H). reflexivity.
  - intros H. rewrite (Hback (Hforth H)). reflexivity.
Qed.

Lemma float64_exact n : n < 2 ^ 53 -> float64 n = n.
Proof.
  intros H. unfold float64.
  destruct (Z.ltb_spec n (2 ^ 53)); [reflexivity | lia].
Qed.

(** Rounding to a double moves an integer below 2^64 by at most 1024. *)
Lemma float64_close n : 0 <= n < 2 ^ 64 -> Z.abs (float64 n - n) <= 1024.
Proof.
  intros Hn. unfold float64.
  destruct (Z.ltb_spec n (2 ^ 53)) as [|Hbig]; [lia|].
  assert (53 <= Z.log2 n < 64) as Hlog.
  { split.
    - change 53 with (Z.log2 (2 ^ 53)). apply Z.log2_le_mono. exact Hbig.
    - apply Z.log2_lt_pow2; lia. }
  set (k := Z.log2 n - 52).
  assert (1 <= k <= 11) as Hk by (unfold k; lia).
  rewrite Z.shiftr_div_pow2, Z.shiftl_mul_pow2 by lia.
  replace (2 ^ k - 1) with (Z.ones k)
    by (rewrite Z.ones_equiv; lia).
  rewrite Z.land_ones by lia.
  assert (0 < 2 ^ k) as Hpos by (apply Z.pow_pos_nonneg; lia).
  pose proof (Z.div_mod n (2 ^ k) ltac:(lia)) as Hdm.
  pose proof (Z.mod_pos_bound n (2 ^ k) Hpos) as Hr.
  assert (2 ^ k = 2 * 2 ^ (k - 1)) as Hhalf.
  { replace k with (Z.succ (k - 1)) at 1 by lia.
    rewrite Z.pow_succ_r by lia. reflexivity. }
  assert (2 ^ (k - 1) <= 1024) as Hsmall.
  { change 1024 with (2 ^ 10). apply Z.pow_le_mono_r; lia. }
  set (q := n / 2 ^ k) in *. set (r := n mod 2 ^ k) in *.
  set (h := 2 ^ (k - 1)) in *.
  destruct ((h <? r) || ((r =? h) && Z.odd q)) eqn:Eup.
  - assert (h <= r) as Hge.
    { apply orb_prop in Eup as [E|E].
      - apply Z.ltb_lt in E. lia.
      - apply andb_prop in E as [E _]. apply Z.eqb_eq in E. lia. }
    nia.
  - assert (r <= h) as Hle.
    { apply orb_false_iff in Eup as [E _]. apply Z.ltb_ge in E. exact E. }
    nia.
Qed.

(** X6.  The score written to the ordered set is the tracker's byte
    total, taken modulo 2^64 and rounded to a double: it is the exact
    total whenever that is below 2^53, and otherwise within 1024 of the
    wrapped total. *)
Theorem zadd_score (t : TrafficTracker) :
  0 <= TotalIn t < 2 ^ 64 -> 0 <= TotalOut t < 2 ^ 64 ->
  exists score,
    zadd t = ZAdd "client->bytes" score (ID t)
    /\ Z.abs (score - (TotalIn t + TotalOut t) mod 2 ^ 64) <= 1024
    /\ (TotalIn t + TotalOut t < 2 ^ 53 -> score = TotalIn t + TotalOut t).
Proof.
  intros Hin Hout. eexists. split; [reflexivity|].
  unfold machine.wrapU64. split.
  - apply float64_close. apply Z.mod_pos_bound. lia.
  - intros Hs. rewrite Z.mod_small by lia. apply float64_exact, Hs.
Qed.

End ReporterMore.

Lemma ReportTraffic_nil_iff_witness :
  utils.ReportTraffic samples.healthy [samples.alice]
  = (utils.Return None,
     utils.sending samples.healthy (utils.writes [samples.alice])).
Proof.
  destruct (ReportTraffic_nil_iff samples.healthy [samples.alice])
    as [[_ Hback] Hall].
  assert (fst (utils.ReportTraffic samples.healthy [samples.alice])
          = utils.Return None) as Hnil.
  { apply Hback. split; [|reflexivity].
    constructor; [discriminate | constructor]. }
  specialize (Hall Hnil).
  destruct (utils.ReportTraffic samples.healthy [samples.alice]) as [r c].
  simpl in *. rewrite Hnil, Hall. reflexivity.
Defined.

Lemma zadd_score_witness :
  utils.zadd samples.alice = redis.ZAdd "client->bytes" 30 "alice".
Proof.
  destruct (zadd_score samples.alice) as (score & Hz & _ & Hexact);
    [split; [discriminate | reflexivity]
    | split; [discriminate | reflexivity] |].
  rewrite Hz, Hexact; reflexivity.
Defined.

(** ** More on the CONNECT handler *)

Section ConnectMore.

Import http middleware httpconnect options utils_respond.

Lemma fold_setters opts : forall f,
  fold_left (fun f s => s f) (map setter opts) f
  = {| next := next f;
       idleTimeout := default (idleTimeout f) (last (omap id opts)) |}.
Proof.
  induction opts as [|o opts IH]; intros f.
  - destruct f; reflexivity.
  - cbn [map fold_left]. rewrite IH. destruct o as [i|].
    + change (omap id (Some i :: opts)) with (i :: omap id opts).
      destruct (omap id opts) as [|j js]; [reflexivity|].
      change (last (i :: j :: js)) with (last (j :: js)).
      destruct (last (j :: js)) eqn:El; [reflexivity|].
      apply last_None in El. discriminate.
    + reflexivity.
Qed.

(** X7.  [New] applies its setters in order: the handler keeps the next
    handler it was given, and its idle timeout is that of the last
    [IdleTimeoutSetter], zero when there is none.  [NewServer] passes
    none, so its CONNECT handler has a zero idle timeout. *)
Theorem New_options nxt opts token maxConns :
  New nxt (map setter opts)
  = {| next := nxt; idleTimeout := lastTimeout opts |}
  /\ idleTimeout (server.connectComponent (server.NewServer token maxConns))
     = 0.
Proof.
  split; [|reflexivity].
  unfold New. rewrite fold_setters. reflexivity.
Qed.

(** X8.  For a CONNECT request the handler always writes the success
    status first, before it knows whether a tunnel can be had.  When the
    connection cannot be hijacked, a bad-gateway response follows the
    200, no tunnel exists and the target is never dialed (the outcome
    does not depend on it); when it can, nothing more is ever written:
    the 200 stays the last response whatever the dial and the relay
    do. *)
Theorem connect_responses f env req x :
  Method req = "CONNECT" ->
  (hijack env = false ->
     statuses (ServeHTTP f env req x) = (statuses x ++ [200; 502])%list
     /\ hijacked (ServeHTTP f env req x) = hijacked x
     /\ tunnel (ServeHTTP f env req x) = tunnel x
     /\ forall d s,
          ServeHTTP f {| hijack := false; dial := d; schedule := s;
                         activeOnWrite := activeOnWrite env;
                         roundTrip := roundTrip env; isPro := isPro env |}
                    req x
          = ServeHTTP f env req x)
  /\ (hijack env = true ->
     statuses (ServeHTTP f env req x) = (statuses x ++ [200])%list
     /\ hijacked (ServeHTTP f env req x) = true
     /\ entered (ServeHTTP f env req x) = (entered x ++ [Connect])%list).
Proof.
  intros Hm. unfold ServeHTTP, intercept, statuses.
  rewrite Hm. simpl. split; intros Hh; rewrite Hh; simpl.
  - rewrite !map_app. simpl. rewrite <- app_assoc. repeat split.
  - destruct (dial env (Host req)); simpl; rewrite map_app; repeat split.
Qed.

(** X9.  When the dial succeeds, the tunnel [intercept] runs is in a
    state the relay can reach from its start.  So, whatever the
    schedule: [closeConns] has run at most once; the client connection
    is closed by the guard only; and if the caller's
    [closeOnce.Do] has returned, that is if [intercept] itself returns,
    both connections are closed. *)
Theorem intercept_tunnel f env req x t0 :
  Method req = "CONNECT" -> hijack env = true ->
  dial env (Host req) = Some t0 ->
  exists t,
    tunnel (ServeHTTP f env req x) = Some t
    /\ relay.reachable (idleTimeout f) (activeOnWrite env) t
    /\ (relay.fired t <= 1)%nat
    /\ (relay.clientClosed t = true -> relay.fired t = 1%nat)
    /\ (relay.pcDown t = relay.Returned ->
        relay.clientClosed t = true /\ relay.targetClosed t = true
        /\ relay.fired t = 1%nat).
Proof.
  intros Hm Hh Hd. unfold ServeHTTP, intercept.
  rewrite Hm, Hh, Hd. simpl.
  eexists. split; [reflexivity|].
  assert (relay.reachable (idleTimeout f) (activeOnWrite env)
            (relay.exec (idleTimeout f) (activeOnWrite env)
                        (relay.established t0) (schedule env))) as Hr.
  { apply exec_reachable. exists t0, []. reflexivity. }
  split; [exact Hr|].
  destruct (invariant_reachable _ _ _ Hr)
    as [_ _ _ Hsaw Hfired Hclient Hout Hraw _].
  set (t := relay.exec _ _ _ _) in *.
  unfold relay.clientClosed, relay.targetClosed.
  rewrite Hraw, Hout, Hclient, Hfired.
  split; [apply once_le|]. split.
  - destruct (relay.done t); [reflexivity|].
    destruct (relay.pcUp t), (relay.pcDown t); simpl; intros E;
      first [reflexivity | discriminate E].
  - intros Hret. rewrite Hret in *. simpl in Hsaw.
    rewrite orb_true_r in Hsaw.
    destruct (relay.done t); [|discriminate]. repeat split.
Qed.

End ConnectMore.

Section RelayMore.

Import relay.

Variable idleTimeout : Z.
Variable activeOnWrite : bool.

Local Abbreviation step := (relay.step idleTimeout activeOnWrite).
Local Abbreviation run := (relay.run idleTimeout activeOnWrite).
Local Abbreviation reachable := (relay.reachable idleTimeout activeOnWrite).

(** After the guard is done, no step closes anything or reopens it. *)
Lemma done_step t l t' :
  invariant t -> done t = true -> step t l = Some t' ->
  done t' = true /\ rawCloses t' = rawCloses t.
Proof.
  intros [] Hd Hs.
  destruct t as [pu pd dn m fi cc oc rc ti nw la lc]; simpl in *. subst dn.
  destruct l as [f o| f | d |]; simpl in Hs.
  - unfold copy in Hs. destruct f, o; simpl in Hs;
      destruct pu, pd; simpl in Hs; try discriminate;
      repeat match type of Hs with
             | context [if ?b then _ else _] => destruct b
             end; try discriminate;
      injection Hs as <-; split; reflexivity.
  - unfold relay.do in Hs. destruct f; simpl in Hs;
      destruct pu, pd, m; simpl in *; try discriminate;
      injection Hs as <-; split; reflexivity.
  - unfold tick in Hs. destruct (0 <? d); [|discriminate].
    injection Hs as <-. split; reflexivity.
  - unfold idle in Hs. simpl in Hs. destruct ti; try discriminate.
    simpl in *. lia.
Qed.

(** X10.  Teardown is final.  Once the guard is done, whatever happens
    next (the other copy failing, its [Do] call, the clock), nothing is
    closed again: [closeConns] has run once, each connection was closed
    once by it, the idle timer can no longer fire, and no bytes move. *)
Theorem teardown_is_final sched : forall t t',
  reachable t -> done t = true -> run t sched = Some t' ->
  done t' = true /\ fired t' = 1%nat
  /\ clientCloses t' = 1%nat /\ outCloses t' = 1%nat
  /\ rawCloses t' = rawCloses t
  /\ step t' Idle = None
  /\ (forall f, step t' (Copy f Data) = None).
Proof.
  assert (forall t t', invariant t -> done t = true ->
            run t sched = Some t' ->
            invariant t' /\ done t' = true /\ rawCloses t' = rawCloses t) as H.
  { induction sched as [|l sched IH]; intros t t' Hi Hd Hr.
    - injection Hr as <-. auto.
    - rewrite run_cons in Hr.
      destruct (step t l) as [t1|] eqn:E; [|discriminate].
      destruct (done_step t l t1 Hi Hd E) as [Hd1 Hraw].
      destruct (IH t1 t' (invariant_step _ _ _ _ _ Hi E) Hd1 Hr)
        as (Hi' & Hd' & Hraw').
      split; [assumption | split; [assumption | congruence]]. }
  intros t t' Hr Hd Hrun.
  destruct (H t t' (invariant_reachable _ _ _ Hr) Hd Hrun)
    as (Hi' & Hd' & Hraw).
  destruct Hi' as [_ _ _ _ Hfired Hclient Hout _ Htimer].
  rewrite Hd' in *. simpl in *.
  repeat split; try assumption.
  - unfold idle. destruct (timer t'); try reflexivity.
    rewrite Hout in Htimer. discriminate.
  - intros f. unfold copy, clientClosed.
    rewrite Hclient. simpl. destruct (pcOf f t'); reflexivity.
Qed.

(** X11.  [Close] is called on the raw target connection at most twice:
    by [closeConns] through [connOut.Close()], and by the idle callback.
    It is called twice exactly when the idle timer fired and the guard
    ran as well; the timer never fires after [connOut] was closed. *)
Theorem target_closed_at_most_twice t :
  reachable t ->
  (rawCloses t <= 2)%nat
  /\ (rawCloses t = 2%nat <-> timer t = Expired /\ outCloses t = 1%nat)
  /\ (outCloses t = 1%nat -> step t Idle = None).
Proof.
  intros Hr.
  destruct (invariant_reachable _ _ _ Hr) as [_ _ _ _ _ _ Hout Hraw Htimer].
  pose proof (once_le (done t || pastOut (pcUp t) || pastOut (pcDown t))).
  rewrite <- Hout in *.
  split; [|split].
  - rewrite Hraw. destruct (timer t); simpl; lia.
  - rewrite Hraw. destruct (timer t); simpl; split;
      try (intros [? ?]; try discriminate); try lia.
    intros ?. split; [reflexivity | lia].
  - intros Ho. simpl. unfold idle.
    destruct (timer t); try reflexivity. lia.
Qed.

End RelayMore.

Lemma connect_responses_witness :
  middleware.statuses
    (httpconnect.ServeHTTP
       (server.connectComponent (server.NewServer samples.validToken 0))
       samples.online samples.connectOK middleware.fresh) = [200].
Proof.
  destruct (connect_responses
              (server.connectComponent (server.NewServer samples.validToken 0))
              samples.online samples.connectOK middleware.fresh eq_refl)
    as [_ H].
  destruct (H eq_refl) as (Hs & _). exact Hs.
Defined.

Lemma intercept_tunnel_witness :
  exists t,
    middleware.tunnel
      (httpconnect.ServeHTTP
         (server.connectComponent (server.NewServer samples.validToken 0))
         samples.online samples.connectOK middleware.fresh) = Some t
    /\ relay.clientClosed t = true /\ relay.targetClosed t = true.
Proof.
  destruct (intercept_tunnel
              (server.connectComponent (server.NewServer samples.validToken 0))
              samples.online samples.connectOK middleware.fresh 0
              eq_refl eq_refl eq_refl)
    as (t & Ht & _ & _ & _ & Hret).
  exists t. split; [exact Ht|].
  assert (relay.pcDown t = relay.Returned) as Hd.
  { vm_compute in Ht. injection Ht as <-. reflexivity. }
  destruct (Hret Hd) as (Hc & Hta & _). split; assumption.
Defined.

Lemma teardown_is_final_witness :
  exists t',
    relay.run 10 true samples.afterHangUp
      [relay.Tick 100; relay.Tick 5] = Some t'
    /\ relay.fired t' = 1%nat /\ relay.clientCloses t' = 1%nat
    /\ relay.rawCloses t' = relay.rawCloses samples.afterHangUp.
Proof.
  assert (relay.reachable 10 true samples.afterHangUp) as Hr
      by (exists 0, samples.hangUp; vm_compute; reflexivity).
  eexists. split; [vm_compute; reflexivity|].
  destruct (teardown_is_final 10 true [relay.Tick 100; relay.Tick 5]
              samples.afterHangUp _ Hr eq_refl
              ltac:(vm_compute; reflexivity))
    as (_ & Hf & Hc & _ & Hraw & _).
  repeat split; assumption.
Defined.

Lemma target_closed_at_most_twice_witness :
  (relay.rawCloses samples.afterHangUp <= 2)%nat.
Proof.
  assert (relay.reachable 10 true samples.afterHangUp) as Hr
      by (exists 0, samples.hangUp; vm_compute; reflexivity).
  destruct (target_closed_at_most_twice 10 true samples.afterHangUp Hr)
    as [H _].
  exact H.
Defined.

(** ** More on admission control *)

Section ServerMore.

Import http server doServe.

Implicit Types (s : Server) (evs : list (Conn * http.ConnState)).



(** The counter never passes the number of reports. *)
Lemma numConns_bound evs : forall s,
  Z.abs (numConns s) + Z.of_nat (length evs) <= machine.MaxInt64 ->
  Z.abs (numConns (serve s evs)) <= Z.abs (numConns s) + Z.of_nat (length evs).
Proof.
  intros s Hb. rewrite (numConns_serve evs s Hb).
  unfold news, closes, accepted, closed. rewrite !length_map.
  pose proof (filter_length_le (isState StateNew) evs).
  pose proof (filter_length_le (isState StateClosed) evs).
  assert (length (List.filter (isState StateNew) evs)
          + length (List.filter (isState StateClosed) evs) <= length evs)%nat.
  { clear. induction evs as [|[c st] evs IH]; simpl; [lia|].
    destruct st; simpl; lia. }
  lia.
Qed.

(** While the counter stays under the cap a running listener is left
    alone. *)
Lemma serve_under_cap evs : forall s,
  IsStopped (listener s) = false ->
  Z.abs (numConns s) + Z.of_nat (length evs) < maxConns s ->
  maxConns s <= machine.MaxInt64 ->
  listener (serve s evs) = listener s.
Proof.
  induction evs as [|[c state] evs IH]; intros s Hrun Hb Hcap; [reflexivity|].
  rewrite serve_cons. simpl length in Hb.
  assert (Z.abs (numConns (account s c state)) <= Z.abs (numConns s) + 1) as Hn.
  { rewrite numConns_account.
    destruct state; try lia; rewrite wrap64_small;
      unfold machine.MinInt64, machine.MaxInt64 in *; lia. }
  assert (ConnState s c state = Done (account s c state)) as Hd.
  { unfold ConnState. rewrite account_maxConns, account_listener, Hrun.
    destruct (Z.leb_spec (maxConns s) (numConns (account s c state)));
      [lia | reflexivity]. }
  rewrite Hd. simpl state_of.
  rewrite IH; rewrite ?account_listener, ?account_maxConns;
    try assumption; [reflexivity|]. lia.
Qed.

(** X14.  A cap of zero means no limit: [NewServer] turns it into the
    largest int64, and at no point of any sequence of fewer than 2^63-1
    reports does the hook stop the listener; [Accept] keeps going
    through to the embedded listener. *)
Theorem zero_cap_never_stops token evs pre suf :
  evs = (pre ++ suf)%list ->
  Z.of_nat (length evs) < machine.MaxInt64 ->
  maxConns (NewServer token 0) = machine.MaxInt64
  /\ listener (serve (NewServer token 0) pre) = newStoppableListener
  /\ IsStopped (listener (serve (NewServer token 0) pre)) = false
  /\ Accept (listener (serve (NewServer token 0) pre))
     = Done newStoppableListener.
Proof.
  intros -> Hlen. rewrite length_app in Hlen.
  assert (listener (serve (NewServer token 0) pre) = newStoppableListener)
    as Hl.
  { rewrite serve_under_cap; simpl; try reflexivity;
      unfold machine.MaxInt64 in *; lia. }
  rewrite Hl. repeat split.
Qed.

Lemma numConns_nonneg evs :
  lifecycle [] [] evs = true ->
  Z.of_nat (length evs) <= machine.MaxInt64 ->
  forall token cap, 0 <= numConns (serve (NewServer token cap) evs).
Proof.
  intros Hl Hlen token cap.
  destruct (lifecycle_sound _ _ _ Hl) as (Ha & Hc & _ & Hg).
  assert (forall c, c ∈ closed evs -> c ∈ accepted evs) as Hsub.
  { intros c Hin. destruct (Hg c Hin) as [_ [H|H]]; [inversion H | exact H]. }
  pose proof (open_length evs Ha Hc Hsub) as Hopen.
  rewrite numConns_serve by (simpl; lia).
  unfold news, closes. simpl. lia.
Qed.

(** Once stopped, a listener stays stopped while the hook is the only
    one to act and the counter stays at or over the cap. *)
Lemma serve_over_cap evs : forall s,
  IsStopped (listener s) = true ->
  (forall pre suf, evs = (pre ++ suf)%list ->
     maxConns s <= numConns (serve s pre)) ->
  IsStopped (listener (serve s evs)) = true.
Proof.
  induction evs as [|[c state] evs IH] using rev_ind;
    intros s Hst Hall; [exact Hst|].
  rewrite serve_app.
  assert (IsStopped (listener (serve s evs)) = true) as Hprev.
  { apply (IH s Hst). intros pre suf ->.
    apply (Hall pre (suf ++ [(c, state)])%list). rewrite app_assoc. reflexivity. }
  specialize (Hall (evs ++ [(c, state)])%list [] (eq_sym (app_nil_r _))).
  rewrite serve_app in Hall.
  change (serve (serve s evs) [(c, state)])
    with (state_of (ConnState (serve s evs) c state)) in *.
  set (s0 := serve s evs) in *.
  assert (maxConns s0 = maxConns s) as Hm.
  { unfold s0. clear. revert s. induction evs as [|[c st] evs IH]; intros s;
      [reflexivity|]. rewrite serve_cons, IH. apply maxConns_ConnState. }
  rewrite numConns_ConnState in Hall.
  unfold ConnState. rewrite account_maxConns, account_listener, Hm.
  destruct (Z.leb_spec (maxConns s) (numConns (account s0 c state))); [|lia].
  unfold Stop. rewrite Hprev. simpl. exact Hprev.
Qed.

(** X15.  A negative cap is not taken for "no limit": the first report
    stops the listener, and as the counter is never negative on reports
    that follow the life of the connections, the hook never restarts
    it. *)
Theorem negative_cap_stops_at_once token cap evs :
  cap < 0 -> evs <> [] ->
  lifecycle [] [] evs = true ->
  Z.of_nat (length evs) <= machine.MaxInt64 ->
  IsStopped (listener (serve (NewServer token cap) evs)) = true.
Proof.
  intros Hcap Hne Hl Hlen.
  destruct evs as [|[c state] evs]; [contradiction|].
  assert (maxConns (NewServer token cap) = cap) as Hm.
  { simpl. destruct (Z.eqb_spec cap 0); [lia | reflexivity]. }
  rewrite serve_cons.
  assert (state = StateNew) as ->.
  { simpl in Hl. destruct state; try discriminate; reflexivity. }
  set (s1 := state_of (ConnState (NewServer token cap) c StateNew)).
  assert (IsStopped (listener s1) = true /\ maxConns s1 = cap) as [Hst Hm1].
  { split; [|unfold s1; rewrite maxConns_ConnState; exact Hm].
    unfold s1, ConnState. rewrite account_maxConns, Hm.
    assert (numConns (account (NewServer token cap) c StateNew) = 1) as ->
        by reflexivity.
    destruct (Z.leb_spec cap 1); [reflexivity | lia]. }
  apply (serve_over_cap evs s1 Hst).
  intros pre suf ->. rewrite Hm1.
  assert (serve s1 pre = serve (NewServer token cap) ((c, StateNew) :: pre))
    as -> by reflexivity.
  pose proof (numConns_nonneg ((c, StateNew) :: pre)) as Hnn.
  assert (lifecycle [] [] ((c, StateNew) :: pre) = true) as Hl'.
  { apply (lifecycle_prefix _ [] [] suf). exact Hl. }
  specialize (Hnn Hl').
  simpl length in *. rewrite length_app in Hlen.
  specialize (Hnn ltac:(simpl length; lia) token cap). lia.
Qed.

(** X16.  The queue of connections never holds more than its ten
    places, and every [StateActive] report is accounted for: the
    connection joined the queue or, the queue being full, was dropped
    with a message.  The hook never waits for room. *)
Theorem queue_never_overflows evs : forall s,
  (length (q s) <= 10)%nat ->
  (length (q (serve s evs)) <= 10)%nat
  /\ (length (q (serve s evs)) + oops (serve s evs)
      = length (q s) + oops s + reports StateActive evs)%nat.
Proof.
  unfold reports.
  induction evs as [|[c state] evs IH]; intros s Hq.
  - simpl. lia.
  - rewrite serve_cons.
    assert (q (state_of (ConnState s c state)) = q (account s c state)
            /\ oops (state_of (ConnState s c state)) = oops (account s c state))
      as [Eq Eo].
    { unfold ConnState.
      destruct (_ <=? _); [|destruct (IsStopped _)];
        try (destruct (Stop _)); try (destruct (Restart _));
        split; reflexivity. }
    assert ((length (q (account s c state)) <= 10)%nat
            /\ (length (q (account s c state)) + oops (account s c state)
                = length (q s) + oops s
                  + length (List.filter (isState StateActive) [(c, state)]))%nat)
      as [Hq1 Hsum].
    { destruct state; try (simpl; lia).
      unfold account, enqueue. cbn [q oops List.filter isState snd length].
      destruct (10 <=? length (q s))%nat eqn:E;
        [apply Nat.leb_le in E | apply Nat.leb_gt in E];
        rewrite ?length_app; cbn [length]; lia. }
    destruct (IH (state_of (ConnState s c state))) as [Hb Hc];
      [rewrite Eq; exact Hq1|].
    split; [exact Hb|]. rewrite Hc, Eq, Eo.
    change ((c, state) :: evs) with ([(c, state)] ++ evs)%list.
    rewrite List.filter_app, length_app. lia.
Qed.

End ServerMore.

Section QueueLoop.

Import server doServe.

Variable RemoteAddr : Conn -> string.

Local Abbreviation associate := (doServe.associate RemoteAddr).
Local Abbreviation absent := (doServe.absent RemoteAddr).

Lemma associate_skips pre : forall turns rest addr,
  absent addr pre ->
  associate (length pre + turns) (pre ++ rest) addr
  = associate turns (rest ++ pre) addr.
Proof.
  induction pre as [|c pre IH]; intros turns rest addr Habs.
  - simpl. rewrite app_nil_r. reflexivity.
  - inversion Habs as [|? ? Hc Hrest]; subst. simpl.
    apply String.eqb_neq in Hc. rewrite Hc.
    rewrite <- app_assoc. rewrite (IH turns (rest ++ [c])%list addr Hrest).
    rewrite <- app_assoc. reflexivity.
Qed.

(** X17.  The search through the queue: the first connection with the
    request's address is found, and the connections before it go to the
    back of the queue in their order; on an empty queue the handler
    parks at the receive; and when the queue holds connections but none
    has the address (the request's own connection was dropped from a
    full queue, say), the search goes round for ever: it neither finds a
    connection nor parks, however many turns it takes. *)
Theorem associate_outcome addr :
  (forall pre c post turns,
      absent addr pre -> RemoteAddr c = addr ->
      associate (length pre + S turns) (pre ++ c :: post) addr
      = Found c (post ++ pre))
  /\ (forall turns, associate (S turns) [] addr = Parked)
  /\ (forall q turns, q <> [] -> absent addr q ->
        associate turns q addr = Turning).
Proof.
  split; [|split].
  - intros pre c post turns Habs Hc.
    rewrite (associate_skips pre (S turns) (c :: post) addr Habs). simpl.
    apply String.eqb_eq in Hc. rewrite Hc. reflexivity.
  - reflexivity.
  - intros q turns. revert q.
    induction turns as [|turns IH]; intros q Hne Habs; [reflexivity|].
    destruct q as [|c rest]; [contradiction|].
    inversion Habs as [|? ? Hc Hrest]; subst. simpl.
    apply String.eqb_neq in Hc. rewrite Hc.
    apply IH.
    + destruct rest; discriminate.
    + apply Forall_app. split; [exact Hrest|]. constructor; [|constructor].
      apply String.eqb_neq. exact Hc.
Qed.

End QueueLoop.

(** ** Keys and certificates at start-up *)

Section Certs.

Import certs.

Variable PrivateKey Certificate : Type.
Variable w : World PrivateKey Certificate.
Variable tenYearsFromToday : Z.

Local Abbreviation File := (certs.File PrivateKey Certificate).
Local Abbreviation CertContext := (certs.CertContext PrivateKey Certificate).
Local Abbreviation InitServerCert :=
  (certs.InitServerCert PrivateKey Certificate w tenYearsFromToday).
Local Abbreviation makeCert :=
  (certs.makeCert PrivateKey Certificate w tenYearsFromToday).

Implicit Types (ctx : CertContext) (fs : gmap string File).

(** What [makeCert] does to the context and the files. *)
Lemma makeCert_outcome ctx k fs host :
  match makeCert ctx k fs host with
  | (None, ctx', fs') =>
      exists c,
        TLSCertificateFor _ _ w k "Lantern" host tenYearsFromToday true = Ok c
        /\ ctx' = setServerCert _ _ ctx (Some c)
        /\ fs' = <[ServerCertFile _ _ ctx := CertPEM c]> fs
  | (Some _, ctx', fs') =>
      (forall path, path <> ServerCertFile _ _ ctx ->
         fs' !! path = fs !! path)
      /\ PK _ _ ctx' = PK _ _ ctx
      /\ ((forall c, writeError _ _ w (ServerCertFile _ _ ctx) (CertPEM c)
                     = None) -> fs' = fs)
  end.
Proof.
  unfold certs.makeCert.
  destruct (TLSCertificateFor _ _ w k "Lantern" host tenYearsFromToday true)
    as [c|e]; [|repeat split].
  unfold WriteToFile. simpl.
  destruct (writeError _ _ w (ServerCertFile _ _ ctx) (CertPEM c))
    as [[e [rest|]]|] eqn:Ew.
  - repeat split.
    + intros path Hp. apply lookup_insert_ne. congruence.
    + intros Hok. rewrite Hok in Ew. discriminate.
  - repeat split.
  - exists c. repeat split.
Qed.

(** A successful [InitServerCert], step by step: the key was on file
    or was generated and written; the certificate was issued to it and
    written. *)
Lemma InitServerCert_steps ctx fs host ctx' fs' :
  InitServerCert ctx fs host = (None, ctx', fs') ->
  exists k c fs0,
    (fs !! PKFile _ _ ctx = Some (KeyPEM k) /\ fs0 = fs
     \/ fs !! PKFile _ _ ctx = None /\ GeneratePK _ _ w = Ok k
        /\ fs0 = <[PKFile _ _ ctx := KeyPEM k]> fs)
    /\ TLSCertificateFor _ _ w k "Lantern" host tenYearsFromToday true = Ok c
    /\ ctx' = setServerCert _ _ (setPK _ _ ctx (Some k)) (Some c)
    /\ fs' = <[ServerCertFile _ _ ctx := CertPEM c]> fs0.
Proof.
  unfold certs.InitServerCert, LoadPKFromFile. intros Hrun.
  destruct (fs !! PKFile _ _ ctx) as [[k|c|b]|] eqn:Ekey; try discriminate.
  - pose proof (makeCert_outcome (setPK _ _ ctx (Some k)) k fs host) as Hm.
    rewrite Hrun in Hm. destruct Hm as (c & Hc & -> & ->).
    exists k, c, fs. repeat split; [left; split; reflexivity | exact Hc].
  - destruct (GeneratePK _ _ w) as [k|e]; [|discriminate].
    unfold WriteToFile in Hrun. simpl in Hrun.
    destruct (writeError _ _ w (PKFile _ _ ctx) (KeyPEM k)) as [[e [rest|]]|];
      [discriminate | discriminate |].
    pose proof (makeCert_outcome (setPK _ _ ctx (Some k)) k
                  (<[PKFile _ _ ctx := KeyPEM k]> fs) host) as Hm.
    rewrite Hrun in Hm. destruct Hm as (c & Hc & -> & ->).
    exists k, c, (<[PKFile _ _ ctx := KeyPEM k]> fs).
    repeat split; [right; repeat split | exact Hc].
Qed.

(** X18.  When [InitServerCert] succeeds and the key and the
    certificate have files of their own, the two files agree with the
    context and with each other: the key file holds the key of the
    context, the certificate file holds the certificate of the context,
    and that certificate was issued to this key for the given host.  No
    other file is touched. *)
Theorem InitServerCert_success ctx fs host ctx' fs' :
  InitServerCert ctx fs host = (None, ctx', fs') ->
  PKFile _ _ ctx <> ServerCertFile _ _ ctx ->
  exists k c,
    PK _ _ ctx' = Some k /\ ServerCert _ _ ctx' = Some c
    /\ fs' !! PKFile _ _ ctx = Some (KeyPEM k)
    /\ fs' !! ServerCertFile _ _ ctx = Some (CertPEM c)
    /\ TLSCertificateFor _ _ w k "Lantern" host tenYearsFromToday true = Ok c
    /\ (forall path, path <> PKFile _ _ ctx ->
          path <> ServerCertFile _ _ ctx -> fs' !! path = fs !! path).
Proof.
  intros Hrun Hne.
  destruct (InitServerCert_steps ctx fs host ctx' fs' Hrun)
    as (k & c & fs0 & Hkey & Hc & -> & ->).
  exists k, c. simpl. repeat split; try assumption.
  - rewrite lookup_insert_ne by congruence.
    destruct Hkey as [[Hk ->] | (_ & _ & ->)];
      [exact Hk | apply lookup_insert_eq].
  - apply lookup_insert_eq.
  - intros path Hk Hp. rewrite lookup_insert_ne by congruence.
    destruct Hkey as [[_ ->] | (_ & _ & ->)]; [reflexivity|].
    apply lookup_insert_ne. congruence.
Qed.

(** X19.  When the key and the certificate have files of their own, a
    key file that exists is never replaced: whether it loads or not,
    [InitServerCert] leaves it as it is.  When the two share one file
    name, a successful call has replaced the key by the new
    certificate.  Either way no key is generated when the key file
    exists (the outcome is the same whatever [GeneratePK] would
    answer), and when the file does not hold a key the call fails and
    no file changes at all. *)
Theorem InitServerCert_keeps_key ctx fs host f :
  fs !! PKFile _ _ ctx = Some f ->
  (PKFile _ _ ctx <> ServerCertFile _ _ ctx ->
     snd (InitServerCert ctx fs host) !! PKFile _ _ ctx = Some f)
  /\ (PKFile _ _ ctx = ServerCertFile _ _ ctx ->
      forall ctx' fs',
        InitServerCert ctx fs host = (None, ctx', fs') ->
        exists k c,
          f = KeyPEM k /\ fs' !! PKFile _ _ ctx = Some (CertPEM c))
  /\ ((forall k, f <> KeyPEM k) ->
      exists e, InitServerCert ctx fs host
                = (Some e, setPK _ _ ctx None, fs))
  /\ (forall g,
        certs.InitServerCert PrivateKey Certificate
          {| GeneratePK := g;
             TLSCertificateFor := TLSCertificateFor _ _ w;
             writeError := writeError _ _ w |}
          tenYearsFromToday ctx fs host
        = InitServerCert ctx fs host).
Proof.
  intros Hf. split; [|split; [|split]].
  - unfold certs.InitServerCert, LoadPKFromFile. rewrite Hf.
    intros Hne. destruct f as [k|c|b]; simpl; try exact Hf.
    pose proof (makeCert_outcome (setPK _ _ ctx (Some k)) k fs host) as Hm.
    destruct (makeCert (setPK _ _ ctx (Some k)) k fs host) as [[[e|] ctx'] fs'];
      simpl.
    + destruct Hm as (Hoff & _). rewrite Hoff; [exact Hf | exact Hne].
    + destruct Hm as (c & _ & _ & ->). simpl.
      rewrite lookup_insert_ne by congruence. exact Hf.
  - intros Heq ctx' fs' Hrun.
    destruct (InitServerCert_steps ctx fs host ctx' fs' Hrun)
      as (k & c & fs0 & Hkey & _ & _ & ->).
    destruct Hkey as [[Hk _] | (Hnone & _)]; [|congruence].
    exists k, c. split; [congruence|].
    rewrite Heq. apply lookup_insert_eq.
  - unfold certs.InitServerCert, LoadPKFromFile. rewrite Hf.
    intros Hnk. destruct f as [k|c|b];
      [exfalso; apply (Hnk k); reflexivity | ..]; eexists; reflexivity.
  - unfold certs.InitServerCert, LoadPKFromFile. rewrite Hf.
    intros g. destruct f; reflexivity.
Qed.

(** X20.  When [InitServerCert] fails, no file but the key file and the
    certificate file has changed; with a key file on disk before the
    call, none but the certificate file.  When the key and the
    certificate have files of their own, the certificate file is
    touched only if the write of the new certificate is what failed: in
    a world where that write cannot fail, a failed call leaves the
    certificate on file as it was.  With one shared file name and no
    key on disk, a call that generates and writes a key and then fails
    to issue the certificate leaves the new key in that file. *)
Theorem InitServerCert_failure ctx fs host e ctx' fs' :
  InitServerCert ctx fs host = (Some e, ctx', fs') ->
  (forall path, path <> PKFile _ _ ctx -> path <> ServerCertFile _ _ ctx ->
     fs' !! path = fs !! path)
  /\ (forall f, fs !! PKFile _ _ ctx = Some f ->
      forall path, path <> ServerCertFile _ _ ctx ->
        fs' !! path = fs !! path)
  /\ ((forall c, writeError _ _ w (ServerCertFile _ _ ctx) (CertPEM c)
                 = None) ->
      PKFile _ _ ctx <> ServerCertFile _ _ ctx ->
      fs' !! ServerCertFile _ _ ctx = fs !! ServerCertFile _ _ ctx)
  /\ (PKFile _ _ ctx = ServerCertFile _ _ ctx ->
      fs !! PKFile _ _ ctx = None ->
      forall k,
        GeneratePK _ _ w = Ok k ->
        writeError _ _ w (PKFile _ _ ctx) (KeyPEM k) = None ->
        is_err (TLSCertificateFor _ _ w k "Lantern" host
                  tenYearsFromToday true) = true ->
        fs' !! ServerCertFile _ _ ctx = Some (KeyPEM k)).
Proof.
  unfold certs.InitServerCert, LoadPKFromFile. intros Hrun.
  destruct (fs !! PKFile _ _ ctx) as [[k|c|b]|] eqn:Ekey.
  - pose proof (makeCert_outcome (setPK _ _ ctx (Some k)) k fs host) as Hm.
    rewrite Hrun in Hm. simpl in Hm. destruct Hm as (Hoff & _ & Hsame).
    split; [|split; [|split]].
    + intros path _ Hp. apply Hoff, Hp.
    + intros f _ path Hp. apply Hoff, Hp.
    + intros Hok _. rewrite (Hsame Hok). reflexivity.
    + intros _ Hnone. discriminate Hnone.
  - injection Hrun as _ _ <-.
    repeat split; try reflexivity. intros _ Hnone. discriminate Hnone.
  - injection Hrun as _ _ <-.
    repeat split; try reflexivity. intros _ Hnone. discriminate Hnone.
  - destruct (GeneratePK _ _ w) as [k|e'].
    + unfold WriteToFile in Hrun. simpl in Hrun.
      destruct (writeError _ _ w (PKFile _ _ ctx) (KeyPEM k))
        as [[e1 [rest|]]|] eqn:Ew.
      * injection Hrun as _ _ <-. split; [|split; [|split]].
        -- intros path Hk _. apply lookup_insert_ne. congruence.
        -- intros f Hf. discriminate Hf.
        -- intros _ Hne. apply lookup_insert_ne. exact Hne.
        -- intros _ _ k' Hk'. injection Hk' as <-. congruence.
      * injection Hrun as _ _ <-. split; [|split; [|split]].
        -- reflexivity.
        -- intros f Hf. discriminate Hf.
        -- reflexivity.
        -- intros _ _ k' Hk'. injection Hk' as <-. congruence.
      * pose proof (makeCert_outcome (setPK _ _ ctx (Some k)) k
                      (<[PKFile _ _ ctx := KeyPEM k]> fs) host) as Hm.
        unfold certs.makeCert in Hrun, Hm. simpl in Hrun, Hm.
        split; [|split; [|split]].
        -- rewrite Hrun in Hm. destruct Hm as (Hoff & _ & _).
           intros path Hk Hp. rewrite (Hoff path Hp).
           apply lookup_insert_ne. congruence.
        -- intros f Hf. discriminate Hf.
        -- rewrite Hrun in Hm. destruct Hm as (_ & _ & Hsame).
           intros Hok Hne. rewrite (Hsame Hok).
           apply lookup_insert_ne. exact Hne.
        -- intros Heq _ k' Hk' _ Herr. injection Hk' as <-.
           destruct (TLSCertificateFor _ _ w k "Lantern" host
                       tenYearsFromToday true); [discriminate Herr|].
           injection Hrun as _ _ <-. rewrite <- Heq. apply lookup_insert_eq.
    + injection Hrun as _ _ <-. split; [|split; [|split]].
      * reflexivity.
      * intros f Hf. discriminate Hf.
      * reflexivity.
      * intros _ _ k' Hk'. discriminate Hk'.
Qed.

(** X21.  The key outlives the start that made it: after a successful
    call, any later call on the files it left (for any host, in any
    world) works with the same key, generating none; but if the key and
    the certificate share one file name, the certificate has replaced
    the key and the later call fails. *)
Theorem InitServerCert_again ctx fs host ctx' fs' :
  InitServerCert ctx fs host = (None, ctx', fs') ->
  (PKFile _ _ ctx <> ServerCertFile _ _ ctx ->
     forall w2 t2 host2,
       PK _ _ (snd (fst (certs.InitServerCert _ _ w2 t2 ctx fs' host2)))
       = PK _ _ ctx')
  /\ (PKFile _ _ ctx = ServerCertFile _ _ ctx ->
     forall w2 t2 host2,
       exists e, certs.InitServerCert _ _ w2 t2 ctx fs' host2
                 = (Some e, setPK _ _ ctx None, fs')).
Proof.
  intros Hrun.
  destruct (InitServerCert_steps ctx fs host ctx' fs' Hrun)
    as (k & c & fs0 & Hkey & _ & -> & ->).
  split.
  - intros Hne w2 t2 host2.
    assert (<[ServerCertFile _ _ ctx := CertPEM c]> fs0 !! PKFile _ _ ctx
            = Some (KeyPEM k)) as Hk.
    { rewrite lookup_insert_ne by congruence.
      destruct Hkey as [[Hk ->] | (_ & _ & ->)];
        [exact Hk | apply lookup_insert_eq]. }
    unfold certs.InitServerCert, LoadPKFromFile. rewrite Hk.
    unfold certs.makeCert.
    destruct (TLSCertificateFor _ _ w2 k "Lantern" host2 t2 true);
      [|reflexivity].
    destruct (WriteToFile _ _ w2 _ _ _); reflexivity.
  - intros Heq w2 t2 host2.
    unfold certs.InitServerCert, LoadPKFromFile.
    rewrite Heq, lookup_insert_eq. eexists. reflexivity.
Qed.

Variable LoadX509KeyPair :
  gmap string File -> string -> string -> result Certificate.
Variable Listen : string -> Certificate -> result (Listener Certificate).

Local Abbreviation listenTLS :=
  (certs.listenTLS PrivateKey Certificate w tenYearsFromToday
                   LoadX509KeyPair Listen).

(** X22.  [listenTLS] on an address that does not split into host and
    port fails before any key is generated or file written.  On an
    address [host:port] it asks for a certificate for [host] (the empty
    name for an address like [:8080]); when it returns a listener, the
    key is in key.pem, the certificate issued to it for [host] is in
    cert.pem, and the listener is the one [Listen] gave for the address
    and the pair loaded from these files. *)
Theorem listenTLS_outcome addr fs :
  (is_err (net.SplitHostPort addr) = true ->
     exists e, listenTLS addr fs = (Err e, fs))
  /\ (forall host port l fs',
        wire.plain host -> wire.plain port ->
        addr = wire.hostport host port ->
        listenTLS addr fs = (Ok l, fs') ->
        exists k c pair,
          fs' !! "key.pem" = Some (KeyPEM k)
          /\ fs' !! "cert.pem" = Some (CertPEM c)
          /\ TLSCertificateFor _ _ w k "Lantern" host tenYearsFromToday true
             = Ok c
          /\ LoadX509KeyPair fs' "cert.pem" "key.pem" = Ok pair
          /\ Listen addr pair = Ok l).
Proof.
  unfold certs.listenTLS. split.
  - intros He. destruct (net.SplitHostPort addr); [discriminate|].
    eexists. reflexivity.
  - intros host port l fs' Hh Hp -> Hrun.
    rewrite (SplitHostPort_hostport host port Hh Hp) in Hrun.
    set (ctx := {| PKFile := "key.pem"; ServerCertFile := "cert.pem";
                   PK := None; ServerCert := None |}) in *.
    destruct (InitServerCert ctx fs host) as [[[e|] ctx1] fs1] eqn:Ei;
      [discriminate|].
    destruct (InitServerCert_steps ctx fs host ctx1 fs1 Ei)
      as (k & c & fs0 & Hkey & Hiss & -> & ->).
    simpl in Hrun.
    destruct (LoadX509KeyPair _ "cert.pem" "key.pem") as [pair|e] eqn:El;
      [|discriminate].
    destruct (Listen (wire.hostport host port) pair) as [l0|e] eqn:Eli;
      [|discriminate].
    injection Hrun as <- <-.
    exists k, c, pair. simpl. repeat split; try assumption.
    + rewrite lookup_insert_ne by discriminate.
      destruct Hkey as [[Hk ->] | (_ & _ & ->)];
        [exact Hk | apply lookup_insert_eq].
    + apply lookup_insert_eq.
Qed.

End Certs.



Lemma zero_cap_never_stops_witness :
  server.listener
    (server.serve (server.NewServer samples.validToken 0) samples.traffic)
  = server.newStoppableListener.
Proof.
  destruct (zero_cap_never_stops samples.validToken samples.traffic
              samples.traffic [] (eq_sym (app_nil_r _)))
    as (_ & H & _); [vm_compute; reflexivity | exact H].
Defined.

Lemma negative_cap_stops_at_once_witness :
  server.IsStopped
    (server.listener
       (server.serve (server.NewServer samples.validToken (-1))
                     samples.traffic)) = true.
Proof.
  apply negative_cap_stops_at_once.
  - reflexivity.
  - discriminate.
  - vm_compute. reflexivity.
  - vm_compute. discriminate.
Defined.

Lemma queue_never_overflows_witness :
  (length (server.q (server.serve (server.NewServer samples.validToken 2)
                                  samples.traffic)) <= 10)%nat.
Proof.
  destruct (queue_never_overflows samples.traffic
              (server.NewServer samples.validToken 2)) as [H _];
    [simpl; lia | exact H].
Defined.

Lemma associate_outcome_witness :
  doServe.associate samples2.addrOf 2 [1%nat; 2%nat; 3%nat] "10.0.0.2:40002"
  = doServe.Found 2%nat [3%nat; 1%nat].
Proof.
  destruct (associate_outcome samples2.addrOf "10.0.0.2:40002") as [H _].
  apply (H [1%nat] 2%nat [3%nat] 0%nat).
  - constructor; [discriminate | constructor].
  - reflexivity.
Defined.

Lemma InitServerCert_success_witness :
  exists k c,
    snd (certs.InitServerCert nat (string * nat) samples2.world 3650
           samples2.context ∅ "example.com") !! "key.pem"
    = Some (certs.KeyPEM k)
    /\ snd (certs.InitServerCert nat (string * nat) samples2.world 3650
              samples2.context ∅ "example.com") !! "cert.pem"
       = Some (certs.CertPEM c).
Proof.
  destruct (certs.InitServerCert nat (string * nat) samples2.world 3650
              samples2.context ∅ "example.com") as [[err ctx'] fs'] eqn:E.
  assert (err = None) as -> by (vm_compute in E; congruence).
  destruct (InitServerCert_success nat (string * nat) samples2.world 3650
              samples2.context ∅ "example.com" ctx' fs' E)
    as (k & c & _ & _ & Hk & Hc & _); [discriminate|].
  exists k, c. split; assumption.
Defined.

Lemma InitServerCert_keeps_key_witness :
  snd (certs.InitServerCert nat (string * nat) samples2.world 3650
         samples2.context samples2.spoiled "example.com") !! "key.pem"
  = Some (certs.Junk "not a key").
Proof.
  destruct (InitServerCert_keeps_key nat (string * nat) samples2.world 3650
              samples2.context samples2.spoiled "example.com"
              (certs.Junk "not a key")) as [H _];
    [reflexivity|].
  apply H. discriminate.
Defined.

Lemma InitServerCert_failure_witness :
  snd (certs.InitServerCert nat (string * nat) samples2.world 3650
         samples2.context samples2.spoiled "example.com") !! "cert.pem"
  = None.
Proof.
  destruct (certs.InitServerCert nat (string * nat) samples2.world 3650
              samples2.context samples2.spoiled "example.com")
    as [[err ctx'] fs'] eqn:E.
  assert (exists e, err = Some e) as [e ->]
      by (vm_compute in E; injection E as <- _ _; eexists; reflexivity).
  destruct (InitServerCert_failure nat (string * nat) samples2.world 3650
              samples2.context samples2.spoiled "example.com" e ctx' fs' E)
    as (_ & _ & H & _).
  exact (H (fun _ => eq_refl) ltac:(discriminate)).
Defined.

Lemma InitServerCert_again_witness :
  certs.PK nat (string * nat)
    (snd (fst (certs.InitServerCert nat (string * nat) samples2.world 3650
                 samples2.context
                 (snd (certs.InitServerCert nat (string * nat) samples2.world
                         3650 samples2.context ∅ "example.com"))
                 "example.org")))
  = Some 7%nat.
Proof.
  destruct (certs.InitServerCert nat (string * nat) samples2.world 3650
              samples2.context ∅ "example.com") as [[err ctx'] fs'] eqn:E.
  assert (err = None /\ certs.PK _ _ ctx' = Some 7%nat) as [-> Hpk]
      by (vm_compute in E; injection E as <- <- _; split; reflexivity).
  destruct (InitServerCert_again nat (string * nat) samples2.world 3650
              samples2.context ∅ "example.com" ctx' fs' E) as [H _].
  simpl. rewrite H; [exact Hpk | discriminate].
Defined.

Lemma listenTLS_outcome_witness :
  exists e,
    certs.listenTLS nat (string * nat) samples2.world 3650
      samples2.loadPair samples2.listen "localhost" ∅
    = (Err e, ∅).
Proof.
  destruct (listenTLS_outcome nat (string * nat) samples2.world 3650
              samples2.loadPair samples2.listen "localhost" ∅) as [H _].
  apply H. reflexivity.
Defined.

(** With the default address the certificate is issued for the empty
    host name. *)
Example listenTLS_default_address :
  fst (certs.listenTLS nat (string * nat) samples2.world 3650
         samples2.loadPair samples2.listen ":8080" ∅)
  = Ok {| certs.Addr := ":8080"; certs.Served := (EmptyString, 7%nat) |}.
Proof. vm_compute. reflexivity. Qed.
